(** * Constraint solver of the 2D physics engine (src/Physics/Constraint.cpp)

    A shallow embedding of the two constraint solvers, [JointConstraint] and
    [PenetrationConstraint], together with the properties their specification
    states about them.

    Numbers.  The source computes in C++ [float].  They are modelled as IEEE 754
    binary32 values with round-to-nearest-even, through the executable
    specification of floating-point arithmetic of the standard library
    ([SpecFloat], instantiated at precision 24 and maximal exponent 128):
    signed zeros, infinities and NaN are all present, and every operation
    rounds as the hardware does.  NaN payloads are not represented.

    Bodies.  The two bodies of a constraint are reached through pointers and
    mutated in place; the model keeps a store of bodies indexed by address, so
    that a constraint whose two pointers alias behaves as in the source.

    Collaborators.  The class [Body], the solver [MatMN::SolveGaussSeidel] and
    [Vec2::Normal] are declared outside Constraint.cpp; they are abstract
    interfaces here, and every statement holds for all their implementations.
    The small vector and matrix types [Vec2], [VecN] and [MatMN] are modelled
    from their description in the specification. *)

From Stdlib Require Import ZArith List Bool Lia PeanoNat.
From Stdlib Require Import Floats.SpecFloat.
Import ListNotations.

(* ================================================================== *)
(** * Binary32 arithmetic *)
(* ================================================================== *)

Module F32.

Definition prec : Z := 24.
Definition emax : Z := 128.

Definition float : Type := spec_float.

Definition add : float -> float -> float := SFadd prec emax.
Definition sub : float -> float -> float := SFsub prec emax.
Definition mul : float -> float -> float := SFmul prec emax.
Definition div : float -> float -> float := SFdiv prec emax.
Definition opp : float -> float := SFopp.
Definition abs : float -> float := SFabs.

(** The comparison operators of C++ on floats: every comparison with a NaN
    is false. *)
Definition ltb : float -> float -> bool := SFltb.
Definition leb : float -> float -> bool := SFleb.
Definition eqb : float -> float -> bool := SFeqb.

(** The float nearest to an integer: integer literals and small constants. *)
Definition of_Z (z : Z) : float := binary_normalize prec emax z 0 false.

(** The literals of the source. *)
Definition zero : float := S754_zero false.                        (* 0.0f  *)
Definition one : float := S754_finite false 8388608 (-23).         (* 1.0f  *)
Definition neg_one : float := S754_finite true 8388608 (-23).      (* -1.0f *)
Definition two : float := S754_finite false 8388608 (-22).         (* 2.0   *)
Definition c0_1 : float := S754_finite false 13421773 (-27).       (* 0.1f  *)
Definition c0_2 : float := S754_finite false 13421773 (-26).       (* 0.2f  *)
Definition c0_01 : float := S754_finite false 10737418 (-30).      (* 0.01f *)

Definition is_nan (x : float) : bool :=
  match x with S754_nan => true | _ => false end.

(** Neither an infinity nor a NaN. *)
Definition is_finite (x : float) : bool :=
  match x with S754_zero _ | S754_finite _ _ _ => true | _ => false end.

(** A zero of either sign. *)
Definition is_zero (x : float) : bool :=
  match x with S754_zero _ => true | _ => false end.

(** [0 <= x]: a zero of either sign, a positive number or plus infinity. *)
Definition ge_zero (x : float) : bool :=
  match x with
  | S754_zero _ => true
  | S754_infinity s | S754_finite s _ _ => negb s
  | S754_nan => false
  end.

(** The sign bit of [r] is [s], or [r] is NaN. *)
Definition signed (s : bool) (r : float) : Prop :=
  match r with
  | S754_zero s' | S754_infinity s' | S754_finite s' _ _ => s' = s
  | S754_nan => True
  end.

(** A value a binary32 variable can hold: the mantissa and exponent of a
    finite number are in canonical form. *)
Definition valid (x : float) : bool := valid_binary prec emax x.

(** [std::max(a, b)] is [(a < b) ? b : a]; [std::min(a, b)] is
    [(b < a) ? b : a]; [std::clamp(v, lo, hi)] is
    [(v < lo) ? lo : (hi < v) ? hi : v]. *)
Definition max (a b : float) : float := if ltb a b then b else a.
Definition min (a b : float) : float := if ltb b a then b else a.
Definition clamp (v lo hi : float) : float :=
  if ltb v lo then lo else if ltb hi v then hi else v.

End F32.

Abbreviation float := F32.float.

Declare Scope f32_scope.
Delimit Scope f32_scope with f32.
Infix "+" := F32.add : f32_scope.
Infix "-" := F32.sub : f32_scope.
Infix "*" := F32.mul : f32_scope.
Infix "/" := F32.div : f32_scope.
Notation "- x" := (F32.opp x) : f32_scope.
Infix "<?" := F32.ltb : f32_scope.
Infix "<=?" := F32.leb : f32_scope.

Local Open Scope f32_scope.

(* ================================================================== *)
(** * Vec2 *)
(* ================================================================== *)

(** The class [Vec2] is declared outside Constraint.cpp.  The specification
    uses its difference, sum, scaling, negation, dot product and scalar cross
    product with their usual component-wise meaning; each arithmetic step
    rounds to binary32. *)
Module Vec2.

(** Modelled from the spec: the missing class [Vec2], a pair of floats. *)
Record t : Type := mk { x : float; y : float }.

(** Modelled from the spec: the missing [Vec2::operator+]. *)
Definition add (u v : t) : t := mk (x u + x v) (y u + y v).

(** Modelled from the spec: the missing [Vec2::operator-]. *)
Definition sub (u v : t) : t := mk (x u - x v) (y u - y v).

(** Modelled from the spec: the missing [Vec2::operator*(float)]. *)
Definition scale (u : t) (n : float) : t := mk (x u * n) (y u * n).

(** Modelled from the spec: the missing unary [Vec2::operator-]. *)
Definition neg (u : t) : t := mk (- x u) (- y u).

(** Modelled from the spec: the missing [Vec2::Dot]. *)
Definition Dot (u v : t) : float := x u * x v + y u * y v.

(** Modelled from the spec: the missing [Vec2::Cross], the scalar
    [u.x * v.y - u.y * v.x]. *)
Definition Cross (u v : t) : float := x u * y v - y u * x v.

End Vec2.

(* ================================================================== *)
(** * VecN and MatMN *)
(* ================================================================== *)

(** The classes [VecN] and [MatMN] are declared outside Constraint.cpp; the
    specification describes them as "an N-component vector type supporting
    zero-init, indexed read/write, addition, scalar multiplication, dot
    product" and "an M-by-N matrix type supporting zero-init, indexed row
    access, transpose, matrix-matrix and matrix-vector multiplication".

    The source indexes raw arrays without bounds checks; every index the
    constraint code uses lies within the dimensions fixed by the
    constructors.  Outside that range (undefined behaviour in C++) the model
    reads 0 and ignores writes.  Each loop runs over the components of the
    receiver, in index order. *)
Module VecN.

(** Modelled from the spec: the missing class [VecN], its components in
    index order. *)
Definition t : Type := list float.

(** Modelled from the spec: the missing constructor [VecN(n)]; the content of
    the storage is indeterminate until [Zero] is called, the model starts it
    at 0. *)
Definition create (n : nat) : t := repeat F32.zero n.

(** Modelled from the spec: the missing [VecN::Zero]. *)
Definition Zero (v : t) : t := map (fun _ => F32.zero) v.

(** Modelled from the spec: the missing [VecN::operator[]], read. *)
Definition get (v : t) (i : nat) : float := nth i v F32.zero.

(** Modelled from the spec: the missing [VecN::operator[]], write. *)
Fixpoint set (v : t) (i : nat) (x : float) : t :=
  match v, i with
  | [], _ => []
  | _ :: v', O => x :: v'
  | a :: v', S i' => a :: set v' i' x
  end.

(** Modelled from the spec: the missing [VecN::operator+] and [operator+=]. *)
Definition add (v w : t) : t :=
  map (fun i => get v i + get w i) (seq 0 (length v)).

(** Modelled from the spec: the missing [VecN::operator-]. *)
Definition sub (v w : t) : t :=
  map (fun i => get v i - get w i) (seq 0 (length v)).

(** Modelled from the spec: the missing [VecN::operator*(float)]. *)
Definition scale (v : t) (n : float) : t := map (fun a => a * n) v.

(** Modelled from the spec: the missing [VecN::Dot], the sum accumulated from
    [0.0f] in index order:
    [sum = 0.0f; for (i = 0; i < N; i++) sum += data[i] * v.data[i];] *)
Definition Dot (v w : t) : float :=
  fold_left (fun sum i => sum + get v i * get w i) (seq 0 (length v)) F32.zero.

End VecN.

Module MatMN.

(** Modelled from the spec: the missing class [MatMN], [M] rows of [N]
    entries. *)
Record t : Type := mk { M : nat; N : nat; rows : list VecN.t }.

(** Modelled from the spec: the missing constructor [MatMN(M, N)]. *)
Definition create (m n : nat) : t := mk m n (repeat (VecN.create n) m).

(** Modelled from the spec: the missing [MatMN::Zero]. *)
Definition Zero (m : t) : t := mk (M m) (N m) (map VecN.Zero (rows m)).

(** Modelled from the spec: the missing indexed row access [m.rows[i]]. *)
Definition row (m : t) (i : nat) : VecN.t := nth i (rows m) [].

(** Modelled from the spec: the missing read of [m.rows[i][j]]. *)
Definition get (m : t) (i j : nat) : float := VecN.get (row m i) j.

(** Modelled from the spec: the missing write of entry [j] in row [i] of a
    list of rows. *)
Fixpoint set_row (rs : list VecN.t) (i j : nat) (x : float) : list VecN.t :=
  match rs, i with
  | [], _ => []
  | r :: rs', O => VecN.set r j x :: rs'
  | r :: rs', S i' => r :: set_row rs' i' j x
  end.

(** Modelled from the spec: the missing write [m.rows[i][j] = x]. *)
Definition set (m : t) (i j : nat) (x : float) : t :=
  mk (M m) (N m) (set_row (rows m) i j x).

(** Modelled from the spec: the missing [MatMN::Transpose]. *)
Definition Transpose (m : t) : t :=
  mk (N m) (M m)
     (map (fun j => map (fun r => VecN.get r j) (rows m)) (seq 0 (N m))).

(** Modelled from the spec: the missing matrix-vector [MatMN::operator*], one
    dot product per row. *)
Definition mulv (m : t) (v : VecN.t) : VecN.t :=
  map (fun r => VecN.Dot v r) (rows m).

(** Modelled from the spec: the missing matrix-matrix [MatMN::operator*],
    the rows of the left operand against the columns of the right one. *)
Definition mul (m1 m2 : t) : t :=
  mk (M m1) (N m2)
     (map (fun r => map (fun c => VecN.Dot r c) (rows (Transpose m2))) (rows m1)).

(** The dimensions agree with the content. *)
Definition has_dims (m : t) (r c : nat) : Prop :=
  M m = r /\ N m = c /\ length (rows m) = r /\ Forall (fun v => length v = c) (rows m).

End MatMN.

(* ================================================================== *)
(** * Collaborators declared outside Constraint.cpp *)
(* ================================================================== *)

(** The members of [Body] the constraint code reads and calls.  An impulse
    method returns the body as the call leaves it. *)
Module Body.

Class Ops (T : Type) : Type := {
  velocity : T -> Vec2.t;
  angularVelocity : T -> float;
  invMass : T -> float;
  invI : T -> float;
  friction : T -> float;
  restitution : T -> float;
  position : T -> Vec2.t;
  WorldSpaceToLocalSpace : T -> Vec2.t -> Vec2.t;
  LocalSpaceToWorldSpace : T -> Vec2.t -> Vec2.t;
  ApplyImpulseLinear : T -> Vec2.t -> T;
  ApplyImpulseAngular : T -> float -> T
}.

End Body.

(** [MatMN::SolveGaussSeidel] and [Vec2::Normal]. *)
Class LinAlg : Type := {
  SolveGaussSeidel : MatMN.t -> VecN.t -> VecN.t;
  Normal : Vec2.t -> Vec2.t
}.

(** ** The store of bodies *)

(** A [Body*]. *)
Definition ptr : Type := nat.

Definition World (T : Type) : Type := ptr -> T.

Definition upd {T : Type} (w : World T) (p : ptr) (v : T) : World T :=
  fun q => if Nat.eqb q p then v else w q.

(** [p->method(...)]: the body at [p] is replaced by what the method leaves. *)
Definition call {T : Type} (w : World T) (p : ptr) (method : T -> T) : World T :=
  upd w p (method (w p)).

(* ================================================================== *)
(** * Constraint (the shared base class) *)
(* ================================================================== *)

Module Constraint.
Section Methods.
Context {T : Type} {ops : Body.Ops T}.

Definition GetVelocities (w : World T) (a b : ptr) : VecN.t :=
  let V := VecN.create 6 in
  let V := VecN.Zero V in
  let V := VecN.set V 0 (Vec2.x (Body.velocity (w a))) in
  let V := VecN.set V 1 (Vec2.y (Body.velocity (w a))) in
  let V := VecN.set V 2 (Body.angularVelocity (w a)) in
  let V := VecN.set V 3 (Vec2.x (Body.velocity (w b))) in
  let V := VecN.set V 4 (Vec2.y (Body.velocity (w b))) in
  let V := VecN.set V 5 (Body.angularVelocity (w b)) in
  V.

Definition GetInvM (w : World T) (a b : ptr) : MatMN.t :=
  let invM := MatMN.create 6 6 in
  let invM := MatMN.Zero invM in
  let invM := MatMN.set invM 0 0 (Body.invMass (w a)) in
  let invM := MatMN.set invM 1 1 (Body.invMass (w a)) in
  let invM := MatMN.set invM 2 2 (Body.invI (w a)) in
  let invM := MatMN.set invM 3 3 (Body.invMass (w b)) in
  let invM := MatMN.set invM 4 4 (Body.invMass (w b)) in
  let invM := MatMN.set invM 5 5 (Body.invI (w b)) in
  invM.

End Methods.
End Constraint.

(* ================================================================== *)
(** * JointConstraint *)
(* ================================================================== *)

Module JointConstraint.

Record t : Type := mk {
  a : ptr;
  b : ptr;
  aPoint : Vec2.t;
  bPoint : Vec2.t;
  jacobian : MatMN.t;
  cachedLambda : VecN.t;
  bias : float
}.

Section Methods.
Context {T : Type} {ops : Body.Ops T} {la : LinAlg}.

(** [JointConstraint(Body* a, Body* b, const Vec2& anchorPoint)] *)
Definition create (w : World T) (a b : ptr) (anchorPoint : Vec2.t) : t :=
  let cachedLambda := VecN.create 1 in
  let aPoint := Body.WorldSpaceToLocalSpace (w a) anchorPoint in
  let bPoint := Body.WorldSpaceToLocalSpace (w b) anchorPoint in
  let cachedLambda := VecN.Zero cachedLambda in
  mk a b aPoint bPoint (MatMN.create 1 6) cachedLambda F32.zero.

Definition PreSolve (dt : float) (w : World T) (this : t) : World T * t :=
  let a := a this in
  let b := b this in
  (* Get the anchor point position in world space *)
  let pa := Body.LocalSpaceToWorldSpace (w a) (aPoint this) in
  let pb := Body.LocalSpaceToWorldSpace (w b) (bPoint this) in

  let ra := Vec2.sub pa (Body.position (w a)) in
  let rb := Vec2.sub pb (Body.position (w b)) in

  let jacobian := MatMN.Zero (jacobian this) in

  let J1 := Vec2.scale (Vec2.sub pa pb) F32.two in
  let jacobian := MatMN.set jacobian 0 0 (Vec2.x J1) in
  let jacobian := MatMN.set jacobian 0 1 (Vec2.y J1) in

  (* [2.0] is a double: the product is exact in double precision and rounds
     to [float] as the binary32 product by 2 does *)
  let J2 := Vec2.Cross ra (Vec2.sub pa pb) * F32.two in
  let jacobian := MatMN.set jacobian 0 2 J2 in

  let J3 := Vec2.scale (Vec2.sub pb pa) F32.two in
  let jacobian := MatMN.set jacobian 0 3 (Vec2.x J3) in
  let jacobian := MatMN.set jacobian 0 4 (Vec2.y J3) in

  let J4 := Vec2.Cross rb (Vec2.sub pb pa) * F32.two in
  let jacobian := MatMN.set jacobian 0 5 J4 in

  (* Warm starting: apply cached lambda *)
  let Jt := MatMN.Transpose jacobian in
  let impulses := MatMN.mulv Jt (cachedLambda this) in

  (* Apply the impulses to both A and B *)
  let w := call w a (fun body => Body.ApplyImpulseLinear body
                       (Vec2.mk (VecN.get impulses 0) (VecN.get impulses 1))) in
  let w := call w a (fun body => Body.ApplyImpulseAngular body (VecN.get impulses 2)) in
  let w := call w b (fun body => Body.ApplyImpulseLinear body
                       (Vec2.mk (VecN.get impulses 3) (VecN.get impulses 4))) in
  let w := call w b (fun body => Body.ApplyImpulseAngular body (VecN.get impulses 5)) in

  (* Compute the bias term (baumgarte stabilization) *)
  let beta := F32.c0_1 in
  let C := Vec2.Dot (Vec2.sub pb pa) (Vec2.sub pb pa) in
  let C := F32.max F32.zero (C - F32.c0_01) in
  let bias := (beta / dt) * C in
  (w, mk a b (aPoint this) (bPoint this) jacobian (cachedLambda this) bias).

Definition Solve (w : World T) (this : t) : World T * t :=
  let a := a this in
  let b := b this in
  let V := Constraint.GetVelocities w a b in
  let invM := Constraint.GetInvM w a b in

  let J := jacobian this in
  let Jt := MatMN.Transpose (jacobian this) in

  (* Calculate the numerator *)
  let lhs := MatMN.mul (MatMN.mul J invM) Jt in
  let rhs := VecN.scale (MatMN.mulv J V) F32.neg_one in
  let rhs := VecN.set rhs 0 (VecN.get rhs 0 - bias this) in

  (* Solve the values of lambda using Ax=b (Gauss-Seidel method) *)
  let lambda := SolveGaussSeidel lhs rhs in
  let cachedLambda := VecN.add (cachedLambda this) lambda in

  (* Compute the final impulses with direction and magnitude *)
  let impulses := MatMN.mulv Jt lambda in

  (* Apply the impulses to both A and B *)
  let w := call w a (fun body => Body.ApplyImpulseLinear body
                       (Vec2.mk (VecN.get impulses 0) (VecN.get impulses 1))) in
  let w := call w a (fun body => Body.ApplyImpulseAngular body (VecN.get impulses 2)) in
  let w := call w b (fun body => Body.ApplyImpulseLinear body
                       (Vec2.mk (VecN.get impulses 3) (VecN.get impulses 4))) in
  let w := call w b (fun body => Body.ApplyImpulseAngular body (VecN.get impulses 5)) in
  (w, mk a b (aPoint this) (bPoint this) (jacobian this) cachedLambda (bias this)).

End Methods.
End JointConstraint.

(* ================================================================== *)
(** * PenetrationConstraint *)
(* ================================================================== *)

Module PenetrationConstraint.

Record t : Type := mk {
  a : ptr;
  b : ptr;
  aPoint : Vec2.t;
  bPoint : Vec2.t;
  normal : Vec2.t;
  jacobian : MatMN.t;
  cachedLambda : VecN.t;
  bias : float;
  friction : float
}.

Section Methods.
Context {T : Type} {ops : Body.Ops T} {la : LinAlg}.

(** [PenetrationConstraint(Body* a, Body* b, const Vec2& aCollisionPoint,
    const Vec2& bCollisionPoint, const Vec2& normal)] *)
Definition create (w : World T) (a b : ptr)
    (aCollisionPoint bCollisionPoint normal : Vec2.t) : t :=
  let cachedLambda := VecN.create 2 in
  let aPoint := Body.WorldSpaceToLocalSpace (w a) aCollisionPoint in
  let bPoint := Body.WorldSpaceToLocalSpace (w b) bCollisionPoint in
  let normal := Body.WorldSpaceToLocalSpace (w a) normal in
  let cachedLambda := VecN.Zero cachedLambda in
  let friction := F32.zero in
  mk a b aPoint bPoint normal (MatMN.create 2 6) cachedLambda F32.zero friction.

Definition PreSolve (dt : float) (w : World T) (this : t) : World T * t :=
  let a := a this in
  let b := b this in
  (* Get the collision points in world space *)
  let pa := Body.LocalSpaceToWorldSpace (w a) (aPoint this) in
  let pb := Body.LocalSpaceToWorldSpace (w b) (bPoint this) in
  let n := Body.LocalSpaceToWorldSpace (w a) (normal this) in

  let ra := Vec2.sub pa (Body.position (w a)) in
  let rb := Vec2.sub pb (Body.position (w b)) in

  let jacobian := MatMN.Zero (jacobian this) in

  let J1 := Vec2.neg n in
  let jacobian := MatMN.set jacobian 0 0 (Vec2.x J1) in
  let jacobian := MatMN.set jacobian 0 1 (Vec2.y J1) in

  let J2 := - Vec2.Cross ra n in
  let jacobian := MatMN.set jacobian 0 2 J2 in

  let J3 := n in
  let jacobian := MatMN.set jacobian 0 3 (Vec2.x J3) in
  let jacobian := MatMN.set jacobian 0 4 (Vec2.y J3) in

  let J4 := Vec2.Cross rb n in
  let jacobian := MatMN.set jacobian 0 5 J4 in

  let friction := F32.max (Body.friction (w a)) (Body.friction (w b)) in
  let jacobian :=
    if F32.zero <? friction then
      let t := Normal n in
      let jacobian := MatMN.set jacobian 1 0 (- Vec2.x t) in
      let jacobian := MatMN.set jacobian 1 1 (- Vec2.y t) in
      let jacobian := MatMN.set jacobian 1 2 (- Vec2.Cross ra t) in
      let jacobian := MatMN.set jacobian 1 3 (Vec2.x t) in
      let jacobian := MatMN.set jacobian 1 4 (Vec2.y t) in
      let jacobian := MatMN.set jacobian 1 5 (Vec2.Cross rb t) in
      jacobian
    else jacobian in

  (* Warm starting: apply cached lambda *)
  let Jt := MatMN.Transpose jacobian in
  let impulses := MatMN.mulv Jt (cachedLambda this) in

  (* Apply the impulses to both A and B *)
  let w := call w a (fun body => Body.ApplyImpulseLinear body
                       (Vec2.mk (VecN.get impulses 0) (VecN.get impulses 1))) in
  let w := call w a (fun body => Body.ApplyImpulseAngular body (VecN.get impulses 2)) in
  let w := call w b (fun body => Body.ApplyImpulseLinear body
                       (Vec2.mk (VecN.get impulses 3) (VecN.get impulses 4))) in
  let w := call w b (fun body => Body.ApplyImpulseAngular body (VecN.get impulses 5)) in

  (* Compute the bias term (baumgarte stabilization) *)
  let beta := F32.c0_2 in
  let C := Vec2.Dot (Vec2.sub pb pa) (Vec2.neg n) in
  let C := F32.min F32.zero (C + F32.c0_01) in

  (* Calculate relative velocity pre-impulse normal (used to compute elasticity) *)
  let va := Vec2.add (Body.velocity (w a))
              (Vec2.mk (- Body.angularVelocity (w a) * Vec2.y ra)
                       (Body.angularVelocity (w a) * Vec2.x ra)) in
  let vb := Vec2.add (Body.velocity (w b))
              (Vec2.mk (- Body.angularVelocity (w b) * Vec2.y rb)
                       (Body.angularVelocity (w b) * Vec2.x rb)) in
  let vrelDotNormal := Vec2.Dot (Vec2.sub va vb) n in

  (* Get the restitution between the two bodies *)
  let e := F32.min (Body.restitution (w a)) (Body.restitution (w b)) in

  (* Calculate bias term considering elasticity *)
  let bias := (beta / dt) * C + (e * vrelDotNormal) in
  (w, mk a b (aPoint this) (bPoint this) (normal this) jacobian
         (cachedLambda this) bias friction).

Definition Solve (w : World T) (this : t) : World T * t :=
  let a := a this in
  let b := b this in
  let V := Constraint.GetVelocities w a b in
  let invM := Constraint.GetInvM w a b in

  let J := jacobian this in
  let Jt := MatMN.Transpose (jacobian this) in

  (* Calculate the numerator *)
  let lhs := MatMN.mul (MatMN.mul J invM) Jt in
  let rhs := VecN.scale (MatMN.mulv J V) F32.neg_one in
  let rhs := VecN.set rhs 0 (VecN.get rhs 0 - bias this) in

  (* Solve the values of lambda using Ax=b (Gauss-Seidel method) *)
  let lambda := SolveGaussSeidel lhs rhs in
  let oldLambda := cachedLambda this in
  let cachedLambda := VecN.add (cachedLambda this) lambda in
  let cachedLambda :=
    VecN.set cachedLambda 0
      (if VecN.get cachedLambda 0 <? F32.zero then F32.zero
       else VecN.get cachedLambda 0) in

  let cachedLambda :=
    if F32.zero <? friction this then
      let maxFriction := VecN.get cachedLambda 0 * friction this in
      VecN.set cachedLambda 1
        (F32.clamp (VecN.get cachedLambda 1) (- maxFriction) maxFriction)
    else cachedLambda in

  let lambda := VecN.sub cachedLambda oldLambda in

  (* Compute the final impulses with direction and magnitude *)
  let impulses := MatMN.mulv Jt lambda in

  (* Apply the impulses to both A and B *)
  let w := call w a (fun body => Body.ApplyImpulseLinear body
                       (Vec2.mk (VecN.get impulses 0) (VecN.get impulses 1))) in
  let w := call w a (fun body => Body.ApplyImpulseAngular body (VecN.get impulses 2)) in
  let w := call w b (fun body => Body.ApplyImpulseLinear body
                       (Vec2.mk (VecN.get impulses 3) (VecN.get impulses 4))) in
  let w := call w b (fun body => Body.ApplyImpulseAngular body (VecN.get impulses 5)) in
  (w, mk a b (aPoint this) (bPoint this) (normal this) (jacobian this)
         cachedLambda (bias this) (friction this)).

End Methods.
End PenetrationConstraint.

(* ================================================================== *)
(** * Vocabulary of the statements *)
(* ================================================================== *)

(** The four impulse applications that end [PreSolve] and [Solve]: the linear
    and angular impulse of A, then those of B, taken from a 6-vector. *)
Definition apply_impulses {T : Type} {ops : Body.Ops T}
    (w : World T) (a b : ptr) (impulses : VecN.t) : World T :=
  let w := call w a (fun body => Body.ApplyImpulseLinear body
                       (Vec2.mk (VecN.get impulses 0) (VecN.get impulses 1))) in
  let w := call w a (fun body => Body.ApplyImpulseAngular body (VecN.get impulses 2)) in
  let w := call w b (fun body => Body.ApplyImpulseLinear body
                       (Vec2.mk (VecN.get impulses 3) (VecN.get impulses 4))) in
  call w b (fun body => Body.ApplyImpulseAngular body (VecN.get impulses 5)).

(** The states a penetration constraint goes through in the [Solve] calls that
    follow a given state; the bodies may be changed by other constraints
    between two calls. *)
Inductive after_solves {T : Type} {ops : Body.Ops T} {la : LinAlg}
    (c : PenetrationConstraint.t) : PenetrationConstraint.t -> Prop :=
| after_none : after_solves c c
| after_Solve : forall c' (w : World T),
    after_solves c c' -> after_solves c (snd (PenetrationConstraint.Solve w c')).

(** The constraint [c] with its accumulated impulse replaced by [l]. *)
Definition with_cachedLambda (c : PenetrationConstraint.t) (l : VecN.t)
    : PenetrationConstraint.t :=
  PenetrationConstraint.mk
    (PenetrationConstraint.a c) (PenetrationConstraint.b c)
    (PenetrationConstraint.aPoint c) (PenetrationConstraint.bPoint c)
    (PenetrationConstraint.normal c) (PenetrationConstraint.jacobian c)
    l (PenetrationConstraint.bias c) (PenetrationConstraint.friction c).

(** The vector the linear solver returns in [PenetrationConstraint.Solve]
    (the first value of [lambda] there), before any clamping. *)
Definition solved_lambda {T : Type} {ops : Body.Ops T} {la : LinAlg}
    (w : World T) (this : PenetrationConstraint.t) : VecN.t :=
  let a := PenetrationConstraint.a this in
  let b := PenetrationConstraint.b this in
  let V := Constraint.GetVelocities w a b in
  let invM := Constraint.GetInvM w a b in
  let J := PenetrationConstraint.jacobian this in
  let Jt := MatMN.Transpose J in
  let lhs := MatMN.mul (MatMN.mul J invM) Jt in
  let rhs := VecN.scale (MatMN.mulv J V) F32.neg_one in
  let rhs := VecN.set rhs 0 (VecN.get rhs 0 - PenetrationConstraint.bias this) in
  SolveGaussSeidel lhs rhs.

(** The dimensions the constructors give to the members of a constraint. *)
Definition joint_wf (c : JointConstraint.t) : Prop :=
  MatMN.has_dims (JointConstraint.jacobian c) 1 6 /\
  length (JointConstraint.cachedLambda c) = 1%nat.

Definition penetration_wf (c : PenetrationConstraint.t) : Prop :=
  MatMN.has_dims (PenetrationConstraint.jacobian c) 2 6 /\
  length (PenetrationConstraint.cachedLambda c) = 2%nat.

(* ================================================================== *)
(** * A concrete instance of the collaborators *)
(* ================================================================== *)

(** The statements below hold for every implementation of the collaborators.
    To evaluate the code on concrete inputs, [Demo] fixes one. *)
Module Demo.

(** Modelled from the spec: a rigid body that "exposes linear velocity,
    angular velocity, inverse mass, inverse rotational inertia, world
    position, and local-world point transforms; accepts linear and angular
    impulse application", and whose velocity does not change under an
    impulse when it is immovable ([invMass = 0]).  The orientation of this
    body is fixed at angle 0, so its local frame is a translation of the
    world frame. *)
Record RigidBody : Type := mkBody {
  velocity : Vec2.t;
  angularVelocity : float;
  invMass : float;
  invI : float;
  friction : float;
  restitution : float;
  position : Vec2.t
}.

(** Modelled from the spec: an immovable body is one of inverse mass 0. *)
Definition IsStatic (body : RigidBody) : bool := F32.eqb (invMass body) F32.zero.

(** Modelled from the spec: the world-to-local point transform of a body at
    angle 0. *)
Definition WorldSpaceToLocalSpace (body : RigidBody) (p : Vec2.t) : Vec2.t :=
  Vec2.sub p (position body).

(** Modelled from the spec: the local-to-world point transform of a body at
    angle 0. *)
Definition LocalSpaceToWorldSpace (body : RigidBody) (p : Vec2.t) : Vec2.t :=
  Vec2.add p (position body).

(** Modelled from the spec: a linear impulse changes the velocity by the
    impulse times the inverse mass, and changes nothing of an immovable
    body. *)
Definition ApplyImpulseLinear (body : RigidBody) (j : Vec2.t) : RigidBody :=
  if IsStatic body then body
  else mkBody (Vec2.add (velocity body) (Vec2.scale j (invMass body)))
              (angularVelocity body) (invMass body) (invI body)
              (friction body) (restitution body) (position body).

(** Modelled from the spec: an angular impulse changes the angular velocity
    by the impulse times the inverse inertia, and changes nothing of an
    immovable body. *)
Definition ApplyImpulseAngular (body : RigidBody) (j : float) : RigidBody :=
  if IsStatic body then body
  else mkBody (velocity body) (angularVelocity body + j * invI body)
              (invMass body) (invI body)
              (friction body) (restitution body) (position body).

#[export] Instance body_ops : Body.Ops RigidBody := {
  Body.velocity := velocity;
  Body.angularVelocity := angularVelocity;
  Body.invMass := invMass;
  Body.invI := invI;
  Body.friction := friction;
  Body.restitution := restitution;
  Body.position := position;
  Body.WorldSpaceToLocalSpace := WorldSpaceToLocalSpace;
  Body.LocalSpaceToWorldSpace := LocalSpaceToWorldSpace;
  Body.ApplyImpulseLinear := ApplyImpulseLinear;
  Body.ApplyImpulseAngular := ApplyImpulseAngular
}.

(** Modelled from the spec: one sweep of "an iterative (Gauss-Seidel-style)
    solve of A x = b", where a row whose diagonal entry is zero contributes
    nothing (the correction of that row is not a number and is dropped). *)
Definition sweep (A : MatMN.t) (b : VecN.t) (X : VecN.t) : VecN.t :=
  fold_left
    (fun X i =>
       let dx := VecN.get b i / MatMN.get A i i
                 - VecN.Dot (MatMN.row A i) X / MatMN.get A i i in
       if F32.eqb dx dx then VecN.set X i (VecN.get X i + dx) else X)
    (seq 0 (length b)) X.

(** Modelled from the spec: the solver, as many sweeps as there are
    unknowns. *)
Definition GaussSeidel (A : MatMN.t) (b : VecN.t) : VecN.t :=
  fold_left (fun X _ => sweep A b X) (seq 0 (length b)) (VecN.Zero b).

(** Modelled from the spec: "the normal's perpendicular (tangent) vector". *)
Definition perpendicular (v : Vec2.t) : Vec2.t := Vec2.mk (Vec2.y v) (- Vec2.x v).

Definition linalg : LinAlg := {|
  SolveGaussSeidel := GaussSeidel;
  Normal := perpendicular
|}.

(** A solver that returns a fixed vector, to drive [Solve] with a chosen
    value of lambda. *)
Definition returning (lambda : VecN.t) : LinAlg := {|
  SolveGaussSeidel := fun _ _ => lambda;
  Normal := perpendicular
|}.

Definition f (z : Z) : float := F32.of_Z z.
Definition vec (a b : Z) : Vec2.t := Vec2.mk (f a) (f b).
Definition half : float := F32.div (f 1) (f 2).
Definition infinity : float := S754_infinity false.

(** [FLT_MAX], the largest finite float. *)
Definition max_float : float := SFmax_float F32.prec F32.emax.

(** A unit-mass body at rest at [pos], with the given material. *)
Definition body_at (pos : Vec2.t) (mu e : float) : RigidBody :=
  mkBody (vec 0 0) (f 0) (f 1) (f 1) mu e pos.

(** Body 0 at (0,0) moving right and up, body 1 at (1,0), friction [mu]. *)
Definition world (mu : float) : World RigidBody :=
  fun p =>
    match p with
    | O => mkBody (vec 1 1) (f 0) (f 1) (f 1) mu half (vec 0 0)
    | _ => body_at (vec 1 0) mu half
    end.

(** The same bodies when body 0 moves away from body 1 and slides along the
    contact: its velocity is (-1,1). *)
Definition separating (mu : float) : World RigidBody :=
  upd (world mu) 0 (mkBody (vec (-1) 1) (f 0) (f 1) (f 1) mu half (vec 0 0)).

(** A joint of bodies 0 and 1 anchored at (0,0): the anchors coincide. *)
Definition joint : JointConstraint.t :=
  JointConstraint.create (world (f 0)) 0 1 (vec 0 0).

(** The same joint after body 1 has drifted by 1 along x. *)
Definition drifted (mu : float) : World RigidBody :=
  upd (world mu) 1 (body_at (vec 2 0) mu half).

(** A contact of bodies 0 and 1 at (1,0) with normal (1,0). *)
Definition contact (mu : float) : PenetrationConstraint.t :=
  PenetrationConstraint.create (world mu) 0 1 (vec 1 0) (vec 1 0) (vec 1 0).

(** A time step of 1/60 s. *)
Definition dt : float := F32.div (f 1) (f 60).

(** The contact of friction [mu] and its bodies as [PreSolve] leaves them. *)
Definition prepared (mu : float) : World RigidBody * PenetrationConstraint.t :=
  PenetrationConstraint.PreSolve (la := linalg) dt (world mu) (contact mu).

(** One [Solve] of the prepared contact in which the solver returns [lambda]. *)
Definition solved (mu : float) (lambda : VecN.t)
    : World RigidBody * PenetrationConstraint.t :=
  PenetrationConstraint.Solve (la := returning lambda)
    (fst (prepared mu)) (snd (prepared mu)).

(** The separating contact of friction [mu] as [PreSolve] leaves it, and one
    [Solve] of it with the Gauss-Seidel solver. *)
Definition separating_prepared (mu : float)
    : World RigidBody * PenetrationConstraint.t :=
  PenetrationConstraint.PreSolve (la := linalg) dt (separating mu) (contact mu).

Definition separating_solved (mu : float)
    : World RigidBody * PenetrationConstraint.t :=
  PenetrationConstraint.Solve (la := linalg)
    (fst (separating_prepared mu)) (snd (separating_prepared mu)).

End Demo.

(* ================================================================== *)
(** * Vocabulary of the further properties *)
(* ================================================================== *)

(** Equal, or two zeros of whatever signs: what [==] tells of two floats,
    except that two NaN are the same value here. *)
Definition same_value (x y : float) : Prop :=
  x = y \/ (F32.is_zero x = true /\ F32.is_zero y = true).

(** The linear impulse of A (components 0 and 1) is the opposite of the
    linear impulse of B (components 3 and 4). *)
Definition linear_opposite (impulses : VecN.t) : Prop :=
  same_value (VecN.get impulses 0) (- VecN.get impulses 3) /\
  same_value (VecN.get impulses 1) (- VecN.get impulses 4).

(** Every component is finite. *)
Definition all_finite (v : VecN.t) : Prop :=
  Forall (fun x => F32.is_finite x = true) v.

(** The states of a joint: the constructor's, then any sequence of calls of
    [PreSolve] and [Solve], on any bodies and time steps. *)
Inductive joint_states {T : Type} {ops : Body.Ops T} {la : LinAlg}
    : JointConstraint.t -> Prop :=
| joint_created : forall (w : World T) (a b : ptr) (anchorPoint : Vec2.t),
    joint_states (JointConstraint.create w a b anchorPoint)
| joint_presolved : forall (dt : float) (w : World T) (c : JointConstraint.t),
    joint_states c -> joint_states (snd (JointConstraint.PreSolve dt w c))
| joint_solved : forall (w : World T) (c : JointConstraint.t),
    joint_states c -> joint_states (snd (JointConstraint.Solve w c)).

(** The states of a contact, alike. *)
Inductive penetration_states {T : Type} {ops : Body.Ops T} {la : LinAlg}
    : PenetrationConstraint.t -> Prop :=
| penetration_created :
    forall (w : World T) (a b : ptr) (pa pb n : Vec2.t),
    penetration_states (PenetrationConstraint.create w a b pa pb n)
| penetration_presolved :
    forall (dt : float) (w : World T) (c : PenetrationConstraint.t),
    penetration_states c ->
    penetration_states (snd (PenetrationConstraint.PreSolve dt w c))
| penetration_solved : forall (w : World T) (c : PenetrationConstraint.t),
    penetration_states c ->
    penetration_states (snd (PenetrationConstraint.Solve w c)).

(** The states a joint goes through in the [Solve] calls that follow a given
    state. *)
Inductive joint_after_solves {T : Type} {ops : Body.Ops T} {la : LinAlg}
    (c : JointConstraint.t) : JointConstraint.t -> Prop :=
| joint_after_none : joint_after_solves c c
| joint_after_Solve : forall c' (w : World T),
    joint_after_solves c c' ->
    joint_after_solves c (snd (JointConstraint.Solve w c')).

(** The vector the linear solver returns in [JointConstraint.Solve]. *)
Definition joint_solved_lambda {T : Type} {ops : Body.Ops T} {la : LinAlg}
    (w : World T) (this : JointConstraint.t) : VecN.t :=
  let a := JointConstraint.a this in
  let b := JointConstraint.b this in
  let V := Constraint.GetVelocities w a b in
  let invM := Constraint.GetInvM w a b in
  let J := JointConstraint.jacobian this in
  let Jt := MatMN.Transpose J in
  let lhs := MatMN.mul (MatMN.mul J invM) Jt in
  let rhs := VecN.scale (MatMN.mulv J V) F32.neg_one in
  let rhs := VecN.set rhs 0 (VecN.get rhs 0 - JointConstraint.bias this) in
  SolveGaussSeidel lhs rhs.

(** The system [JointConstraint::Solve] hands to the linear solver. *)
Definition joint_lhs {T : Type} {ops : Body.Ops T}
    (w : World T) (this : JointConstraint.t) : MatMN.t :=
  let a := JointConstraint.a this in
  let b := JointConstraint.b this in
  let invM := Constraint.GetInvM w a b in
  let J := JointConstraint.jacobian this in
  let Jt := MatMN.Transpose J in
  MatMN.mul (MatMN.mul J invM) Jt.

Definition joint_rhs {T : Type} {ops : Body.Ops T}
    (w : World T) (this : JointConstraint.t) : VecN.t :=
  let a := JointConstraint.a this in
  let b := JointConstraint.b this in
  let V := Constraint.GetVelocities w a b in
  let J := JointConstraint.jacobian this in
  let rhs := VecN.scale (MatMN.mulv J V) F32.neg_one in
  VecN.set rhs 0 (VecN.get rhs 0 - JointConstraint.bias this).

(** The system [PenetrationConstraint::Solve] hands to the linear solver. *)
Definition penetration_lhs {T : Type} {ops : Body.Ops T}
    (w : World T) (this : PenetrationConstraint.t) : MatMN.t :=
  let a := PenetrationConstraint.a this in
  let b := PenetrationConstraint.b this in
  let invM := Constraint.GetInvM w a b in
  let J := PenetrationConstraint.jacobian this in
  let Jt := MatMN.Transpose J in
  MatMN.mul (MatMN.mul J invM) Jt.

Definition penetration_rhs {T : Type} {ops : Body.Ops T}
    (w : World T) (this : PenetrationConstraint.t) : VecN.t :=
  let a := PenetrationConstraint.a this in
  let b := PenetrationConstraint.b this in
  let V := Constraint.GetVelocities w a b in
  let J := PenetrationConstraint.jacobian this in
  let rhs := VecN.scale (MatMN.mulv J V) F32.neg_one in
  VecN.set rhs 0 (VecN.get rhs 0 - PenetrationConstraint.bias this).

(** The bodies of [Demo.world] with body 1 moved to (2,0) and made
    inelastic: the contact at (1,0) is penetrated by 1. *)
Definition inelastic_world : World Demo.RigidBody :=
  upd (Demo.world Demo.half) 1 (Demo.body_at (Demo.vec 2 0) Demo.half (Demo.f 0)).

(* ================================================================== *)
(** * Facts about binary32 arithmetic *)
(* ================================================================== *)

Module F32Facts.
Import F32.

(** The result of rounding carries the sign it was given, unless it is NaN. *)
Lemma binary_round_aux_signed s m e l :
  signed s (binary_round_aux F32.prec F32.emax s m e l).
Proof.
  unfold binary_round_aux.
  destruct (shr_fexp F32.prec F32.emax m e l) as [mrs' e'].
  destruct (shr_fexp F32.prec F32.emax _ e' loc_Exact) as [mrs'' e''].
  destruct (shr_m mrs''); simpl; auto.
  destruct (Z.leb e'' _); simpl; auto.
Qed.

Lemma binary_round_signed s m e :
  signed s (binary_round F32.prec F32.emax s m e).
Proof.
  unfold binary_round.
  destruct (shl_align m e _) as [mz ez].
  apply binary_round_aux_signed.
Qed.

Lemma mul_comm x y : x * y = y * x.
Proof.
  destruct x as [sx|sx| |sx mx ex], y as [sy|sy| |sy my ey]; simpl;
    try reflexivity; try (now rewrite xorb_comm).
  unfold F32.mul, SFmul.
  now rewrite xorb_comm, Pos.mul_comm, Z.add_comm.
Qed.

Lemma opp_involutive x : - - x = x.
Proof. destruct x; simpl; try reflexivity; now rewrite negb_involutive. Qed.

Lemma cont_antisym m1 m2 :
  Pos.compare_cont Eq m2 m1 = CompOpp (Pos.compare_cont Eq m1 m2).
Proof. symmetry. apply (Pos.compare_cont_antisym m1 m2 Eq). Qed.

Lemma compare_antisym x y :
  SFcompare y x = option_map CompOpp (SFcompare x y).
Proof.
  destruct x as [sx|sx| |sx mx ex], y as [sy|sy| |sy my ey];
    try destruct sx; try destruct sy; simpl; try reflexivity;
    rewrite (Z.compare_antisym ey ex), (cont_antisym mx my);
    destruct (ey ?= ex)%Z; simpl; try reflexivity.
  all: try now rewrite CompOpp_involutive.
Qed.

Lemma compare_opp x y : SFcompare (- x) (- y) = SFcompare y x.
Proof.
  destruct x as [sx|sx| |sx mx ex], y as [sy|sy| |sy my ey];
    try destruct sx; try destruct sy; simpl; try reflexivity;
    rewrite (Z.compare_antisym ey ex), (cont_antisym mx my);
    destruct (ey ?= ex)%Z; simpl; try reflexivity.
  all: try now rewrite CompOpp_involutive.
Qed.

Lemma compare_refl x : F32.is_nan x = false -> SFcompare x x = Some Eq.
Proof.
  destruct x as [s|s| |s m e]; try destruct s; simpl; intros; try reflexivity;
    try discriminate; now rewrite Z.compare_refl, Pos.compare_cont_refl.
Qed.


Lemma compare_none x y :
  SFcompare x y = None -> F32.is_nan x = true \/ F32.is_nan y = true.
Proof.
  destruct x as [sx|sx| |sx mx ex], y as [sy|sy| |sy my ey]; simpl;
    intros E; try discriminate E; auto.
Qed.

Lemma ltb_nan_l x y : F32.is_nan x = true -> (x <? y) = false.
Proof. destruct x; try discriminate; reflexivity. Qed.

Lemma ltb_nan_r x y : F32.is_nan y = true -> (x <? y) = false.
Proof. destruct y; try discriminate; destruct x; reflexivity. Qed.

Lemma not_ltb_leb x y :
  F32.is_nan x = false -> F32.is_nan y = false ->
  (x <? y) = false -> (y <=? x) = true.
Proof.
  intros Hx Hy. unfold F32.ltb, F32.leb, SFltb, SFleb.
  rewrite (compare_antisym x y).
  destruct (SFcompare x y) as [[ | | ]|] eqn:E; simpl; try easy.
  destruct (compare_none _ _ E); congruence.
Qed.

Lemma leb_not_ltb x y : (x <=? y) = true -> (y <? x) = false.
Proof.
  unfold F32.ltb, F32.leb, SFltb, SFleb.
  rewrite (compare_antisym x y).
  destruct (SFcompare x y) as [[ | | ]|]; simpl; easy.
Qed.

Lemma leb_refl x : F32.is_nan x = false -> (x <=? x) = true.
Proof. intros Hx. unfold F32.leb, SFleb. now rewrite compare_refl. Qed.

Lemma leb_opp x y : (- x <=? - y) = (y <=? x).
Proof. unfold F32.leb, SFleb, F32.opp. now rewrite compare_opp. Qed.

Lemma is_nan_opp x : F32.is_nan (- x) = F32.is_nan x.
Proof. now destruct x. Qed.

Lemma is_nan_abs x : F32.is_nan (F32.abs x) = F32.is_nan x.
Proof. now destruct x. Qed.

Lemma abs_cases x : F32.abs x = x \/ F32.abs x = - x.
Proof. destruct x as [[|]|[|]| |[|] m e]; simpl; auto. Qed.

(** ** Values that are at least zero *)

Lemma leb_zero x : (F32.zero <=? x) = ge_zero x.
Proof. now destruct x as [[|]|[|]| |[|] m e]. Qed.

Lemma not_ltb_zero x :
  (x <? F32.zero) = false -> F32.is_nan x = false -> ge_zero x = true.
Proof. now destruct x as [[|]|[|]| |[|] m e]. Qed.

Lemma signed_ge_zero r :
  signed false r -> F32.is_nan r = true \/ ge_zero r = true.
Proof. destruct r; simpl; intros E; subst; auto. Qed.

Lemma mul_ge_zero a mu :
  (a <? F32.zero) = false -> (F32.zero <? mu) = true ->
  F32.is_nan (a * mu) = true \/ ge_zero (a * mu) = true.
Proof.
  intros Ha Hmu.
  destruct mu as [[|]|[|]| |[|] m e]; try discriminate Hmu;
    destruct a as [[|]|[|]| |[|] ma ea]; try discriminate Ha; simpl; auto.
  apply signed_ge_zero, (binary_round_aux_signed false).
Qed.

Lemma ge_zero_bounds m :
  ge_zero m = true -> (m <? - m) = false /\ (- m <=? m) = true.
Proof. now destruct m as [[|]|[|]| |[|] mm e]. Qed.

Lemma ge_zero_not_nan m : ge_zero m = true -> F32.is_nan m = false.
Proof. now destruct m. Qed.

(** ** std::clamp between [-m] and [m] *)

(** When [hi < lo] is false, [std::clamp] computed as
    [std::min(std::max(v, lo), hi)], as some standard libraries do, is the
    same value. *)
Lemma clamp_as_min_max v lo hi :
  (hi <? lo) = false -> F32.min (F32.max v lo) hi = F32.clamp v lo hi.
Proof.
  intros P. unfold F32.min, F32.max, F32.clamp.
  destruct (v <? lo) eqn:L; [now rewrite P | reflexivity].
Qed.

Lemma clamp_between m x :
  ge_zero m = true -> F32.is_nan x = false ->
  (- m <=? F32.clamp x (- m) m) = true /\ (F32.clamp x (- m) m <=? m) = true.
Proof.
  intros Hm Hx.
  pose proof (ge_zero_not_nan _ Hm) as Nm.
  destruct (ge_zero_bounds _ Hm) as [_ Hle].
  unfold F32.clamp.
  destruct (x <? - m) eqn:E1; [|destruct (m <? x) eqn:E2].
  - split; [apply leb_refl; now rewrite is_nan_opp | exact Hle].
  - split; [exact Hle | now apply leb_refl].
  - split; apply not_ltb_leb; auto. now rewrite is_nan_opp.
Qed.

Lemma clamp_abs m x :
  F32.is_nan m = true \/ ge_zero m = true ->
  let r := F32.clamp x (- m) m in
  (m <? F32.abs r) = false /\
  (F32.is_nan r = false -> F32.is_nan m = false -> (F32.abs r <=? m) = true).
Proof.
  intros Hm r.
  assert (L : F32.is_nan r = false -> F32.is_nan m = false ->
              (F32.abs r <=? m) = true).
  { intros Hr Nm. destruct Hm as [Hm|Hm]; [congruence|].
    assert (Hx : F32.is_nan x = false).
    { destruct (F32.is_nan x) eqn:Nx; [|reflexivity].
      subst r. unfold F32.clamp in Hr.
      rewrite (ltb_nan_l _ _ Nx), (ltb_nan_r _ _ Nx) in Hr. congruence. }
    destruct (clamp_between m x Hm Hx) as [B1 B2]. fold r in B1, B2.
    destruct (abs_cases r) as [E|E]; rewrite E; [exact B2|].
    rewrite <- (opp_involutive m) at 1. now rewrite leb_opp. }
  split; [|exact L].
  destruct (F32.is_nan m) eqn:Nm; [now apply ltb_nan_l|].
  destruct (F32.is_nan r) eqn:Nr.
  - apply ltb_nan_r. now rewrite is_nan_abs.
  - apply leb_not_ltb. now apply L.
Qed.


(** ** Adding a zero, multiplying by zero *)

Lemma mul_zero_r l :
  F32.is_finite l = true -> F32.is_zero (l * F32.zero) = true.
Proof. now destruct l. Qed.

(** A sum that started from [0.0f] is never the negative zero, so adding a
    zero of either sign leaves it as it is. *)
Lemma add_zero_absorbed p z :
  F32.is_zero z = true -> (F32.zero + p) + z = F32.zero + p.
Proof.
  destruct z as [sz| | |]; try discriminate. intros _.
  now destruct p as [[|]|[|]| |[|] m e], sz.
Qed.

(** ** The sign of a difference *)

Lemma ltb_zero_signed r : signed true r -> (F32.zero <? r) = false.
Proof. destruct r; simpl; intros E; subst; reflexivity. Qed.

Lemma digits2_pos_bound m : (Zpos m < 2 ^ Zpos (digits2_pos m))%Z.
Proof.
  induction m as [m IH|m IH|]; simpl digits2_pos;
    rewrite ?Pos2Z.inj_succ, ?Z.pow_succ_r by apply Pos2Z.is_nonneg; lia.
Qed.

Lemma iter_xO m d : (Zpos (Pos.iter xO m d) = Zpos m * 2 ^ Zpos d)%Z.
Proof.
  induction d as [|d IH] using Pos.peano_ind.
  - simpl. lia.
  - rewrite Pos.iter_succ, Pos2Z.inj_succ, Z.pow_succ_r by apply Pos2Z.is_nonneg.
    rewrite Pos2Z.inj_xO, IH. lia.
Qed.

(** A canonical mantissa has at most 24 bits. *)
Lemma valid_mantissa s m e :
  F32.valid (S754_finite s m e) = true -> (Zpos m < 16777216)%Z.
Proof.
  unfold F32.valid, valid_binary, bounded, canonical_mantissa, fexp, emin.
  intros V. apply andb_prop in V. destruct V as [V _].
  apply Z.eqb_eq in V.
  assert (D : (Zpos (digits2_pos m) <= 24)%Z) by (unfold F32.prec, F32.emax in V; lia).
  pose proof (digits2_pos_bound m) as B.
  assert (P : (2 ^ Zpos (digits2_pos m) <= 2 ^ 24)%Z)
    by (apply Z.pow_le_mono_r; lia).
  change (2 ^ 24)%Z with 16777216%Z in P. lia.
Qed.

(** The first component of [shl_align] is the mantissa shifted left to the
    smaller exponent. *)
Lemma shl_align_fst m e e' :
  (Zpos (fst (shl_align m e e')) = Zpos m * 2 ^ Z.max 0 (e - e'))%Z.
Proof.
  unfold shl_align.
  destruct (e' - e)%Z as [|d|d] eqn:D; cbn [fst].
  - replace (Z.max 0 (e - e'))%Z with 0%Z by lia. lia.
  - replace (Z.max 0 (e - e'))%Z with 0%Z by lia. lia.
  - replace (Z.max 0 (e - e'))%Z with (Zpos d) by lia. apply iter_xO.
Qed.

(** Normalizing an integer that is not positive never gives a positive
    float. *)
Lemma normalize_not_pos z e :
  (z <= 0)%Z ->
  (F32.zero <? binary_normalize F32.prec F32.emax z e false) = false.
Proof.
  intros L. destruct z as [|p|p]; [reflexivity | lia |].
  apply ltb_zero_signed. unfold binary_normalize. apply binary_round_signed.
Qed.

(** Subtracting [0.01f] from a float that is at most [0.01f] never gives a
    positive float. *)
Lemma sub_c0_01_not_pos C :
  F32.valid C = true -> (C <=? F32.c0_01) = true ->
  (F32.zero <? C - F32.c0_01) = false.
Proof.
  intros V L.
  destruct C as [s|[|]| |s m e]; try discriminate L; try reflexivity.
  (* the mantissa and exponent of a positive C are bounded by those of 0.01f *)
  assert (B : s = false ->
              (e < -30 /\ Zpos m < 16777216)%Z \/ (e = -30 /\ Zpos m <= 10737418)%Z).
  { intros ->. pose proof (valid_mantissa _ _ _ V) as B.
    unfold F32.leb, SFleb, F32.c0_01, SFcompare in L.
    destruct (Z.compare_spec e (-30)) as [E|E|E]; try discriminate L; [right|left; lia].
    split; [exact E|]. rewrite Pos.compare_cont_spec in L. cbn [Pos.switch_Eq] in L.
    destruct (m ?= 10737418)%positive eqn:Cm; try discriminate L.
    - apply Pos.compare_eq in Cm. subst m. lia.
    - apply Z.lt_le_incl. exact Cm. }
  clear V L.
  unfold F32.sub, F32.c0_01, SFsub. apply normalize_not_pos.
  rewrite !shl_align_fst.
  destruct s; unfold cond_Zopp.
  - (* a negative number *)
    assert (0 < 2 ^ Z.max 0 (e - Z.min e (-30)))%Z by (apply Z.pow_pos_nonneg; lia).
    assert (0 < 2 ^ Z.max 0 (-30 - Z.min e (-30)))%Z by (apply Z.pow_pos_nonneg; lia).
    nia.
  - destruct (B eq_refl) as [[E M]|[E M]].
    + replace (Z.max 0 (e - Z.min e (-30)))%Z with 0%Z by lia.
      replace (Z.max 0 (-30 - Z.min e (-30)))%Z with (-30 - e)%Z by lia.
      assert (2 ^ 1 <= 2 ^ (-30 - e))%Z by (apply Z.pow_le_mono_r; lia).
      nia.
    + subst e.
      replace (Z.max 0 (-30 - Z.min (-30) (-30)))%Z with 0%Z by lia.
      lia.
Qed.

End F32Facts.

(* ================================================================== *)
(** * Facts about VecN and MatMN *)
(* ================================================================== *)

Module VecNFacts.

Lemma length_set v i x : length (VecN.set v i x) = length v.
Proof.
  revert i; induction v as [|a v IH]; intros [|i]; simpl; auto.
Qed.

Lemma get_set_same v i x :
  (i < length v)%nat -> VecN.get (VecN.set v i x) i = x.
Proof.
  revert i; induction v as [|a v IH]; intros [|i] L; simpl in *; try lia; auto.
  apply IH; lia.
Qed.

Lemma get_set_other v i j x :
  i <> j -> VecN.get (VecN.set v i x) j = VecN.get v j.
Proof.
  revert i j; induction v as [|a v IH]; intros [|i] [|j] D; simpl; auto;
    try congruence.
  apply IH; congruence.
Qed.

Lemma get_overflow v i : (length v <= i)%nat -> VecN.get v i = F32.zero.
Proof. intros L. now apply nth_overflow. Qed.

Lemma length_add v w : length (VecN.add v w) = length v.
Proof. unfold VecN.add. now rewrite length_map, length_seq. Qed.

(** Reading back a component that has just been written: the value
    written, or 0 when the index is outside the vector. *)
Lemma get_set_cases v i x :
  VecN.get (VecN.set v i x) i = x \/ VecN.get (VecN.set v i x) i = F32.zero.
Proof.
  destruct (Nat.lt_ge_cases i (length v)) as [L|L].
  - left. now apply get_set_same.
  - right. apply get_overflow. now rewrite length_set.
Qed.

Lemma length_sub v w : length (VecN.sub v w) = length v.
Proof. unfold VecN.sub. now rewrite length_map, length_seq. Qed.

Lemma two_components (v : VecN.t) :
  length v = 2%nat -> v = [VecN.get v 0; VecN.get v 1].
Proof. destruct v as [|x [|y [|z v]]]; try discriminate; reflexivity. Qed.

End VecNFacts.

Module MatMNFacts.

Lemma set_row_dims rs i j x c :
  Forall (fun v => length v = c) rs ->
  length (MatMN.set_row rs i j x) = length rs /\
  Forall (fun v => length v = c) (MatMN.set_row rs i j x).
Proof.
  intros F. revert i. induction F as [|r rs Lr F IH]; intros [|i]; cbn; auto.
  - split; [reflexivity|]. constructor; [|exact F].
    now rewrite VecNFacts.length_set.
  - destruct (IH i) as [IL IF]. split; [now rewrite IL|]. now constructor.
Qed.

Lemma has_dims_set m r c i j x :
  MatMN.has_dims m r c -> MatMN.has_dims (MatMN.set m i j x) r c.
Proof.
  intros (DM & DN & L & F). destruct (set_row_dims (MatMN.rows m) i j x c F) as [SL SF].
  unfold MatMN.has_dims, MatMN.set. cbn [MatMN.M MatMN.N MatMN.rows].
  repeat split; auto. now rewrite SL.
Qed.

Lemma has_dims_Zero m r c :
  MatMN.has_dims m r c -> MatMN.has_dims (MatMN.Zero m) r c.
Proof.
  intros (DM & DN & L & F).
  unfold MatMN.has_dims, MatMN.Zero. cbn [MatMN.M MatMN.N MatMN.rows].
  repeat split; auto.
  - now rewrite length_map.
  - apply Forall_map. apply (Forall_impl _ (P := fun v => length v = c)); [|exact F].
    intros v Lv. unfold VecN.Zero. now rewrite length_map.
Qed.

Lemma has_dims_1_6 m :
  MatMN.has_dims m 1 6 ->
  exists x0 x1 x2 x3 x4 x5, m = MatMN.mk 1 6 [[x0; x1; x2; x3; x4; x5]].
Proof.
  destruct m as [M N rows]. unfold MatMN.has_dims. cbn [MatMN.M MatMN.N MatMN.rows].
  intros (-> & -> & L & F).
  destruct rows as [|r [|r' rs]]; try discriminate L.
  inversion F as [|? ? Lr _]; subst.
  destruct r as [|x0 [|x1 [|x2 [|x3 [|x4 [|x5 [|x6 r]]]]]]]; try discriminate Lr.
  now exists x0, x1, x2, x3, x4, x5.
Qed.

Lemma has_dims_2_6 m :
  MatMN.has_dims m 2 6 ->
  exists x0 x1 x2 x3 x4 x5 y0 y1 y2 y3 y4 y5,
    m = MatMN.mk 2 6 [[x0; x1; x2; x3; x4; x5]; [y0; y1; y2; y3; y4; y5]].
Proof.
  destruct m as [M N rows]. unfold MatMN.has_dims. cbn [MatMN.M MatMN.N MatMN.rows].
  intros (-> & -> & L & F).
  destruct rows as [|r [|r' [|r'' rs]]]; try discriminate L.
  inversion F as [|? ? Lr F']; subst. inversion F' as [|? ? Lr' _]; subst.
  destruct r as [|x0 [|x1 [|x2 [|x3 [|x4 [|x5 [|x6 r]]]]]]]; try discriminate Lr.
  destruct r' as [|y0 [|y1 [|y2 [|y3 [|y4 [|y5 [|y6 r']]]]]]]; try discriminate Lr'.
  now exists x0, x1, x2, x3, x4, x5, y0, y1, y2, y3, y4, y5.
Qed.

(** The product of the transpose of a 2-by-6 matrix whose second row is zero
    with a 2-vector whose second component is finite: that component does
    not contribute. *)
Lemma mulv_zero_row x0 x1 x2 x3 x4 x5 l0 l1 :
  F32.is_finite l1 = true ->
  let J := MatMN.mk 2 6 [[x0; x1; x2; x3; x4; x5];
                         [F32.zero; F32.zero; F32.zero; F32.zero; F32.zero; F32.zero]] in
  MatMN.mulv (MatMN.Transpose J) [l0; l1] =
  MatMN.mulv (MatMN.Transpose J) [l0; F32.zero].
Proof.
  intros Fl J. subst J.
  unfold MatMN.mulv, MatMN.Transpose, VecN.Dot.
  cbn [map seq length fold_left VecN.get nth MatMN.rows MatMN.N].
  rewrite !(F32Facts.add_zero_absorbed _ (l1 * F32.zero))
    by now apply F32Facts.mul_zero_r.
  rewrite !(F32Facts.add_zero_absorbed _ (F32.zero * F32.zero)) by reflexivity.
  reflexivity.
Qed.
End MatMNFacts.

(** The decimal literals of the source are the floats nearest to them. *)
Lemma literal_values :
  F32.c0_1 = F32.of_Z 1 / F32.of_Z 10 /\
  F32.c0_2 = F32.of_Z 2 / F32.of_Z 10 /\
  F32.c0_01 = F32.of_Z 1 / F32.of_Z 100 /\
  F32.one = F32.of_Z 1 /\ F32.two = F32.of_Z 2 /\ F32.neg_one = F32.of_Z (-1) /\
  F32.valid F32.c0_1 && F32.valid F32.c0_2 && F32.valid F32.c0_01 = true.
Proof. repeat split. Qed.

(* ================================================================== *)
(** * JointConstraint: Jacobian, bias and Solve *)
(* ================================================================== *)

Section JointProperties.
Context {T : Type} {ops : Body.Ops T} {la : LinAlg}.
Import JointConstraint.

(** C4.  After [PreSolve], the Jacobian is the single row
    [2(pa-pb).x, 2(pa-pb).y, 2(ra x (pa-pb)), 2(pb-pa).x, 2(pb-pa).y,
    2(rb x (pb-pa))], where [pa] and [pb] are the anchors in world space,
    [ra = pa - A.position] and [rb = pb - B.position]. *)
Theorem joint_jacobian (dt : float) (w : World T) (this : t) :
  MatMN.has_dims (jacobian this) 1 6 ->
  let pa := Body.LocalSpaceToWorldSpace (w (a this)) (aPoint this) in
  let pb := Body.LocalSpaceToWorldSpace (w (b this)) (bPoint this) in
  let ra := Vec2.sub pa (Body.position (w (a this))) in
  let rb := Vec2.sub pb (Body.position (w (b this))) in
  let J := jacobian (snd (PreSolve dt w this)) in
  MatMN.has_dims J 1 6 /\
  MatMN.rows J =
    [[ F32.two * Vec2.x (Vec2.sub pa pb);
       F32.two * Vec2.y (Vec2.sub pa pb);
       F32.two * Vec2.Cross ra (Vec2.sub pa pb);
       F32.two * Vec2.x (Vec2.sub pb pa);
       F32.two * Vec2.y (Vec2.sub pb pa);
       F32.two * Vec2.Cross rb (Vec2.sub pb pa) ]].
Proof.
  intros D pa pb ra rb J.
  destruct (MatMNFacts.has_dims_1_6 _ D) as (x0 & x1 & x2 & x3 & x4 & x5 & E).
  subst J. unfold PreSolve. cbn [snd jacobian]. rewrite E.
  unfold MatMN.set, MatMN.Zero, MatMN.has_dims.
  cbn [MatMN.rows MatMN.M MatMN.N map VecN.Zero MatMN.set_row VecN.set length].
  rewrite !(F32Facts.mul_comm F32.two).
  repeat split; auto.
Qed.

(** C6 (as amended).  After [PreSolve], the bias is
    [(0.1/dt) * max(0, |pb-pa|^2 - 0.01)]; it is a zero whenever the squared
    anchor distance is at most 0.01 and the quotient [0.1/dt] is finite.
    The squared distance is taken as any value a float variable can hold. *)
Theorem joint_bias (dt : float) (w : World T) (this : t) :
  let pa := Body.LocalSpaceToWorldSpace (w (a this)) (aPoint this) in
  let pb := Body.LocalSpaceToWorldSpace (w (b this)) (bPoint this) in
  let C := Vec2.Dot (Vec2.sub pb pa) (Vec2.sub pb pa) in
  let bias' := bias (snd (PreSolve dt w this)) in
  bias' = (F32.c0_1 / dt) * F32.max F32.zero (C - F32.c0_01) /\
  (F32.valid C = true -> (C <=? F32.c0_01) = true ->
   F32.is_finite (F32.c0_1 / dt) = true -> F32.is_zero bias' = true).
Proof.
  intros pa pb C bias'. split; [reflexivity|].
  intros V L Fq. subst bias'. unfold PreSolve. cbn [snd bias].
  fold pa pb C.
  unfold F32.max. rewrite (F32Facts.sub_c0_01_not_pos C V L).
  now apply F32Facts.mul_zero_r.
Qed.

(** C7.  [Solve] reads the six velocities and the six inverse masses of the
    two bodies, solves [(J invM Jt) lambda = -(J V)] with the bias subtracted
    from the first component of the right-hand side, adds [lambda] to the
    accumulated impulse and applies [Jt lambda] to the bodies: whatever the
    solver returns is accumulated and applied as it is. *)
Theorem joint_Solve_unclamped (w : World T) (this : t) :
  let A := a this in
  let B := b this in
  let V := Constraint.GetVelocities w A B in
  let invM := Constraint.GetInvM w A B in
  let J := jacobian this in
  let Jt := MatMN.Transpose J in
  let lhs := MatMN.mul (MatMN.mul J invM) Jt in
  let rhs := VecN.scale (MatMN.mulv J V) F32.neg_one in
  let rhs' := VecN.set rhs 0 (VecN.get rhs 0 - bias this) in
  let lambda := SolveGaussSeidel lhs rhs' in
  V = [ Vec2.x (Body.velocity (w A)); Vec2.y (Body.velocity (w A));
        Body.angularVelocity (w A);
        Vec2.x (Body.velocity (w B)); Vec2.y (Body.velocity (w B));
        Body.angularVelocity (w B) ] /\
  invM = (let o := F32.zero in
          let ma := Body.invMass (w A) in let ia := Body.invI (w A) in
          let mb := Body.invMass (w B) in let ib := Body.invI (w B) in
          MatMN.mk 6 6 [ [ma; o; o; o; o; o]; [o; ma; o; o; o; o];
                         [o; o; ia; o; o; o]; [o; o; o; mb; o; o];
                         [o; o; o; o; mb; o]; [o; o; o; o; o; ib] ]) /\
  (MatMN.has_dims J 1 6 ->
   rhs' = [VecN.Dot V (MatMN.row J 0) * F32.neg_one - bias this]) /\
  Solve w this =
    (apply_impulses w A B (MatMN.mulv Jt lambda),
     mk A B (aPoint this) (bPoint this) J
        (VecN.add (cachedLambda this) lambda) (bias this)) /\
  (length (cachedLambda this) = 1%nat ->
   cachedLambda (snd (Solve w this)) =
     [VecN.get (cachedLambda this) 0 + VecN.get lambda 0]).
Proof.
  intros A B V invM J Jt lhs rhs rhs' lambda.
  split; [reflexivity|]. split; [reflexivity|]. split; [|split; [reflexivity|]].
  - intros D.
    destruct (MatMNFacts.has_dims_1_6 _ D) as (x0 & x1 & x2 & x3 & x4 & x5 & E).
    subst rhs' rhs. rewrite E. reflexivity.
  - intros L. unfold Solve. cbn [snd cachedLambda]. fold A B V invM J Jt lhs rhs rhs' lambda.
    unfold VecN.add. rewrite L. reflexivity.
Qed.

End JointProperties.

(* ================================================================== *)
(** * PenetrationConstraint: bias, clamping and applied impulse *)
(* ================================================================== *)

Section PenetrationProperties.
Context {T : Type} {ops : Body.Ops T} {la : LinAlg}.
Import PenetrationConstraint.

(** ** What the impulses leave unchanged *)

(** A method call on one body leaves what the method leaves unchanged as it
    was, for every body of the store. *)
Lemma call_frame (X : Type) (g : T -> X) (w : World T) (p : ptr) (method : T -> T) :
  (forall body, g (method body) = g body) ->
  forall q, g (call w p method q) = g (w q).
Proof.
  intros Hm q. unfold call, upd.
  destruct (Nat.eqb_spec q p) as [->|_]; [apply Hm | reflexivity].
Qed.

(** A quantity of a body that neither impulse method changes is the same
    for every body after the four impulse applications, also when the two
    pointers alias. *)
Lemma apply_impulses_frame (X : Type) (g : T -> X)
    (w : World T) (a b : ptr) (impulses : VecN.t) :
  (forall body j, g (Body.ApplyImpulseLinear body j) = g body) ->
  (forall body j, g (Body.ApplyImpulseAngular body j) = g body) ->
  forall q, g (apply_impulses w a b impulses q) = g (w q).
Proof.
  intros HL HA q. unfold apply_impulses.
  rewrite !call_frame; auto.
Qed.

(** C5.  After [PreSolve], the bias is
    [(0.2/dt) * min(0, (pb-pa).(-n) + 0.01) + e * ((va-vb).n)], with
    [e = min(A.restitution, B.restitution)] and
    [va = A.velocity + (-A.angularVelocity*ra.y, A.angularVelocity*ra.x)],
    [vb] alike.  The points [pa], [pb] and the normal [n] are those computed
    on entry; the velocities are those of the bodies when [PreSolve] returns,
    that is, after the warm start. *)
Theorem penetration_bias (dt : float) (w : World T) (this : t) :
  let A := a this in
  let B := b this in
  let pa := Body.LocalSpaceToWorldSpace (w A) (aPoint this) in
  let pb := Body.LocalSpaceToWorldSpace (w B) (bPoint this) in
  let n := Body.LocalSpaceToWorldSpace (w A) (normal this) in
  let ra := Vec2.sub pa (Body.position (w A)) in
  let rb := Vec2.sub pb (Body.position (w B)) in
  let w' := fst (PreSolve dt w this) in
  let e := F32.min (Body.restitution (w' A)) (Body.restitution (w' B)) in
  let va := Vec2.add (Body.velocity (w' A))
              (Vec2.mk (- Body.angularVelocity (w' A) * Vec2.y ra)
                       (Body.angularVelocity (w' A) * Vec2.x ra)) in
  let vb := Vec2.add (Body.velocity (w' B))
              (Vec2.mk (- Body.angularVelocity (w' B) * Vec2.y rb)
                       (Body.angularVelocity (w' B) * Vec2.x rb)) in
  bias (snd (PreSolve dt w this)) =
    (F32.c0_2 / dt)
      * F32.min F32.zero (Vec2.Dot (Vec2.sub pb pa) (Vec2.neg n) + F32.c0_01)
    + e * Vec2.Dot (Vec2.sub va vb) n.
Proof. reflexivity. Qed.

(** For bodies whose impulse methods change neither the position nor the
    point transform, the points and the normal are the same on entry and on
    return, and the whole expression can be read on the bodies as [PreSolve]
    leaves them. *)
Lemma penetration_bias_on_return (dt : float) (w : World T) (this : t) :
  (forall body j, Body.position (Body.ApplyImpulseLinear body j)
                  = Body.position body) ->
  (forall body j, Body.position (Body.ApplyImpulseAngular body j)
                  = Body.position body) ->
  (forall p body j, Body.LocalSpaceToWorldSpace (Body.ApplyImpulseLinear body j) p
                    = Body.LocalSpaceToWorldSpace body p) ->
  (forall p body j, Body.LocalSpaceToWorldSpace (Body.ApplyImpulseAngular body j) p
                    = Body.LocalSpaceToWorldSpace body p) ->
  let A := a this in
  let B := b this in
  let w' := fst (PreSolve dt w this) in
  let pa := Body.LocalSpaceToWorldSpace (w' A) (aPoint this) in
  let pb := Body.LocalSpaceToWorldSpace (w' B) (bPoint this) in
  let n := Body.LocalSpaceToWorldSpace (w' A) (normal this) in
  let ra := Vec2.sub pa (Body.position (w' A)) in
  let rb := Vec2.sub pb (Body.position (w' B)) in
  let e := F32.min (Body.restitution (w' A)) (Body.restitution (w' B)) in
  let va := Vec2.add (Body.velocity (w' A))
              (Vec2.mk (- Body.angularVelocity (w' A) * Vec2.y ra)
                       (Body.angularVelocity (w' A) * Vec2.x ra)) in
  let vb := Vec2.add (Body.velocity (w' B))
              (Vec2.mk (- Body.angularVelocity (w' B) * Vec2.y rb)
                       (Body.angularVelocity (w' B) * Vec2.x rb)) in
  bias (snd (PreSolve dt w this)) =
    (F32.c0_2 / dt)
      * F32.min F32.zero (Vec2.Dot (Vec2.sub pb pa) (Vec2.neg n) + F32.c0_01)
    + e * Vec2.Dot (Vec2.sub va vb) n.
Proof.
  intros PL PA TL TA A B w' pa pb n ra rb e va vb.
  assert (P : forall q, Body.position (w' q) = Body.position (w q))
    by (intros q; apply (apply_impulses_frame _ Body.position); assumption).
  assert (L : forall p q, Body.LocalSpaceToWorldSpace (w' q) p
                          = Body.LocalSpaceToWorldSpace (w q) p).
  { intros p q.
    apply (apply_impulses_frame _ (fun body => Body.LocalSpaceToWorldSpace body p));
      [apply TL | apply TA]. }
  subst va vb ra rb n pb pa. rewrite !P, !L. reflexivity.
Qed.

(** ** The accumulated impulse in [Solve] *)

(** The accumulated impulse once its normal component has been clamped, and
    what [Solve] stores from it. *)
Lemma Solve_cachedLambda (w : World T) (this : t) :
  let accumulated := VecN.add (cachedLambda this) (solved_lambda w this) in
  let clamped :=
    VecN.set accumulated 0
      (if VecN.get accumulated 0 <? F32.zero then F32.zero
       else VecN.get accumulated 0) in
  let maxFriction := VecN.get clamped 0 * friction this in
  cachedLambda (snd (Solve w this)) =
    (if F32.zero <? friction this then
       VecN.set clamped 1
         (F32.clamp (VecN.get clamped 1) (- maxFriction) maxFriction)
     else clamped) /\
  VecN.get (cachedLambda (snd (Solve w this))) 0 = VecN.get clamped 0 /\
  (VecN.get clamped 0 <? F32.zero) = false.
Proof.
  intros accumulated clamped maxFriction.
  assert (E : cachedLambda (snd (Solve w this)) =
              if F32.zero <? friction this then
                VecN.set clamped 1
                  (F32.clamp (VecN.get clamped 1) (- maxFriction) maxFriction)
              else clamped) by reflexivity.
  split; [exact E|]. split.
  - rewrite E. destruct (F32.zero <? friction this); [|reflexivity].
    now apply VecNFacts.get_set_other.
  - subst clamped.
    destruct (VecNFacts.get_set_cases accumulated 0
               (if VecN.get accumulated 0 <? F32.zero then F32.zero
                else VecN.get accumulated 0)) as [G|G]; rewrite G.
    + destruct (VecN.get accumulated 0 <? F32.zero) eqn:L; [reflexivity|exact L].
    + reflexivity.
Qed.

(** C1.  After [Solve], the accumulated normal impulse is never negative,
    whatever the bodies, the Jacobian and the solver are: it is not below
    zero, and it is at least zero unless it is NaN. *)
Theorem normal_impulse_never_negative (w : World T) (this : t) :
  let l0 := VecN.get (cachedLambda (snd (Solve w this))) 0 in
  (l0 <? F32.zero) = false /\
  (F32.is_nan l0 = false -> (F32.zero <=? l0) = true).
Proof.
  intros l0. subst l0.
  destruct (Solve_cachedLambda w this) as (_ & -> & N).
  split; [exact N|]. intros NN.
  rewrite F32Facts.leb_zero. now apply F32Facts.not_ltb_zero.
Qed.

(** With a positive friction coefficient, the bound of the friction clamp is
    at least zero or NaN. *)
Lemma maxFriction_sign (w : World T) (this : t) :
  (F32.zero <? friction this) = true ->
  let m := VecN.get (cachedLambda (snd (Solve w this))) 0 * friction this in
  F32.is_nan m = true \/ F32.ge_zero m = true.
Proof.
  intros F. destruct (Solve_cachedLambda w this) as (_ & E & N).
  cbv zeta. rewrite E. now apply F32Facts.mul_ge_zero.
Qed.

(** C2 (as amended).  With a positive friction coefficient, after [Solve]
    the tangential impulse never exceeds [cachedLambda[0] * friction] in
    absolute value, the bound being taken on the normal impulse as [Solve]
    leaves it; and [|cachedLambda[1]| <= cachedLambda[0] * friction] holds
    whenever neither side is NaN. *)
Theorem friction_cone_clamp (w : World T) (this : t) :
  (F32.zero <? friction this) = true ->
  let c' := snd (Solve w this) in
  let l1 := VecN.get (cachedLambda c') 1 in
  let bound := VecN.get (cachedLambda c') 0 * friction c' in
  (bound <? F32.abs l1) = false /\
  (F32.is_nan l1 = false -> F32.is_nan bound = false ->
   (F32.abs l1 <=? bound) = true).
Proof.
  intros F c' l1 bound.
  pose proof (maxFriction_sign w this F) as S. cbv zeta in S.
  change (friction c') with (friction this) in bound.
  fold c' bound in S.
  destruct (Solve_cachedLambda w this) as (E & E0 & _).
  rewrite F in E. fold c' in E, E0.
  assert (B : bound = VecN.get (cachedLambda c') 0 * friction this) by reflexivity.
  rewrite E0 in B. subst l1. rewrite E, <- B.
  match goal with |- context [VecN.set ?v 1 ?x] =>
    destruct (VecNFacts.get_set_cases v 1 x) as [G|G]; rewrite G end.
  - now apply F32Facts.clamp_abs.
  - change (F32.abs F32.zero) with F32.zero.
    destruct S as [S|S].
    + split; [now apply F32Facts.ltb_nan_l | congruence].
    + split; [|intros _ _; now rewrite F32Facts.leb_zero].
      apply F32Facts.leb_not_ltb. now rewrite F32Facts.leb_zero.
Qed.

(** C10 (as amended).  In [Solve] the normal component is clamped to a value
    that is not negative before [maxFriction] is computed from it, and
    [std::clamp] is called with the bounds [-maxFriction] and [maxFriction];
    with a positive friction coefficient [maxFriction < -maxFriction] is
    false on every execution, and [-maxFriction <= maxFriction] holds
    whenever [maxFriction] is not NaN. *)
Theorem clamp_bounds_ordered (w : World T) (this : t) :
  (F32.zero <? friction this) = true ->
  let accumulated := VecN.add (cachedLambda this) (solved_lambda w this) in
  let clamped :=
    VecN.set accumulated 0
      (if VecN.get accumulated 0 <? F32.zero then F32.zero
       else VecN.get accumulated 0) in
  let maxFriction := VecN.get clamped 0 * friction this in
  cachedLambda (snd (Solve w this)) =
    VecN.set clamped 1
      (F32.clamp (VecN.get clamped 1) (- maxFriction) maxFriction) /\
  (VecN.get clamped 0 <? F32.zero) = false /\
  (maxFriction <? - maxFriction) = false /\
  (F32.is_nan maxFriction = false -> (- maxFriction <=? maxFriction) = true).
Proof.
  intros F accumulated clamped maxFriction.
  destruct (Solve_cachedLambda w this) as (E & E0 & N).
  rewrite F in E. split; [exact E|]. split; [exact N|].
  pose proof (maxFriction_sign w this F) as S. cbv zeta in S. rewrite E0 in S.
  change (F32.is_nan maxFriction = true \/ F32.ge_zero maxFriction = true) in S.
  destruct S as [S|S].
  - split; [now apply F32Facts.ltb_nan_l | congruence].
  - destruct (F32Facts.ge_zero_bounds _ S). auto.
Qed.

(** The impulse [Solve] applies is the change of the accumulated impulse. *)
Lemma Solve_applies_delta (w : World T) (this : t) :
  fst (Solve w this) =
    apply_impulses w (a this) (b this)
      (MatMN.mulv (MatMN.Transpose (jacobian this))
         (VecN.sub (cachedLambda (snd (Solve w this))) (cachedLambda this))).
Proof. reflexivity. Qed.

(** ** What the calls leave unchanged *)

Lemma Solve_keeps (w : World T) (this : t) :
  jacobian (snd (Solve w this)) = jacobian this /\
  friction (snd (Solve w this)) = friction this /\
  a (snd (Solve w this)) = a this /\ b (snd (Solve w this)) = b this /\
  length (cachedLambda (snd (Solve w this))) = length (cachedLambda this).
Proof.
  repeat split. unfold Solve. cbn [snd cachedLambda].
  destruct (F32.zero <? friction this);
    now rewrite ?VecNFacts.length_set, VecNFacts.length_add.
Qed.

Lemma after_solves_keeps (c c' : t) :
  after_solves c c' ->
  jacobian c' = jacobian c /\ friction c' = friction c /\
  a c' = a c /\ b c' = b c /\
  length (cachedLambda c') = length (cachedLambda c).
Proof.
  induction 1 as [|c' w' _ IH]; [repeat split|].
  destruct (Solve_keeps w' c') as (E1 & E2 & E3 & E4 & E5).
  destruct IH as (I1 & I2 & I3 & I4 & I5).
  repeat split; congruence.
Qed.

(** What [PreSolve] leaves in the Jacobian of a contact of the constructor's
    dimensions when the friction coefficient is not positive. *)
Lemma frictionless_jacobian (dt : float) (w : World T) (this : t) :
  MatMN.has_dims (jacobian this) 2 6 ->
  (F32.zero <? F32.max (Body.friction (w (a this))) (Body.friction (w (b this))))
    = false ->
  exists x0 x1 x2 x3 x4 x5,
    jacobian (snd (PreSolve dt w this)) =
      MatMN.mk 2 6 [[x0; x1; x2; x3; x4; x5];
                    [F32.zero; F32.zero; F32.zero; F32.zero; F32.zero; F32.zero]].
Proof.
  intros D F.
  destruct (MatMNFacts.has_dims_2_6 _ D)
    as (x0 & x1 & x2 & x3 & x4 & x5 & y0 & y1 & y2 & y3 & y4 & y5 & E).
  unfold PreSolve. cbn [snd jacobian]. rewrite F, E.
  unfold MatMN.set, MatMN.Zero.
  cbn [MatMN.rows MatMN.M MatMN.N map VecN.Zero MatMN.set_row VecN.set].
  eexists _, _, _, _, _, _. reflexivity.
Qed.

(** C8 (as amended).  The friction coefficient [PreSolve] stores is
    [max(A.friction, B.friction)].  When that maximum is zero, row 1 of the
    Jacobian is zero after [PreSolve], and the impulses applied by [PreSolve]
    and by every later [Solve] are those of the normal row alone (they are
    [Jt (lambda0, 0)]), provided the entry of index 1 that multiplies the
    zero row is finite: the accumulated [cachedLambda[1]] in [PreSolve], the
    change of [cachedLambda[1]] in [Solve]. *)
Theorem frictionless_contact (dt : float) (w : World T) (this : t) :
  penetration_wf this ->
  let A := a this in
  let B := b this in
  let mu := F32.max (Body.friction (w A)) (Body.friction (w B)) in
  let c' := snd (PreSolve dt w this) in
  let Jt := MatMN.Transpose (jacobian c') in
  friction c' = mu /\
  (F32.is_zero mu = true ->
     MatMN.row (jacobian c') 1 =
       [F32.zero; F32.zero; F32.zero; F32.zero; F32.zero; F32.zero] /\
     (F32.is_finite (VecN.get (cachedLambda this) 1) = true ->
      fst (PreSolve dt w this) =
        apply_impulses w A B
          (MatMN.mulv Jt [VecN.get (cachedLambda this) 0; F32.zero])) /\
     (forall (c2 : t) (w2 : World T),
        after_solves c' c2 ->
        let delta :=
          VecN.sub (cachedLambda (snd (Solve w2 c2))) (cachedLambda c2) in
        F32.is_finite (VecN.get delta 1) = true ->
        fst (Solve w2 c2) =
          apply_impulses w2 A B (MatMN.mulv Jt [VecN.get delta 0; F32.zero]))).
Proof.
  intros [D L] A B mu c' Jt. split; [reflexivity|]. intros Z.
  assert (F : (F32.zero <? mu) = false) by (now destruct mu).
  destruct (frictionless_jacobian dt w this D F)
    as (x0 & x1 & x2 & x3 & x4 & x5 & E).
  fold c' in E.
  split; [now rewrite E|]. split.
  - intros Fl.
    change (fst (PreSolve dt w this))
      with (apply_impulses w A B (MatMN.mulv Jt (cachedLambda this))).
    rewrite (VecNFacts.two_components _ L) at 1.
    subst Jt. rewrite E. now rewrite MatMNFacts.mulv_zero_row.
  - intros c2 w2 R delta Fl.
    destruct (after_solves_keeps _ _ R) as (K1 & K2 & K3 & K4 & K5).
    rewrite Solve_applies_delta. fold delta.
    assert (L2 : length delta = 2%nat).
    { subst delta. rewrite VecNFacts.length_sub.
      destruct (Solve_keeps w2 c2) as (_ & _ & _ & _ & ->). now rewrite K5. }
    rewrite (VecNFacts.two_components _ L2) at 1.
    rewrite K3, K4, K1. fold Jt. subst Jt. rewrite E.
    now rewrite MatMNFacts.mulv_zero_row.
Qed.

End PenetrationProperties.

(* ================================================================== *)
(** * Two consecutive calls of PreSolve *)
(* ================================================================== *)

Section Consecutive.
Context {T : Type} {ops : Body.Ops T} {la : LinAlg}.

(** [PreSolve] leaves the accumulated impulse of a joint as it found it, so
    the second of two consecutive calls warm-starts with the same
    [cachedLambda]: it applies [Jt cachedLambda], with the Jacobian of the
    second call, to the bodies as the first call left them. *)
Lemma joint_PreSolve_twice (dt : float) (w : World T) (j : JointConstraint.t) :
  let r := JointConstraint.PreSolve dt w j in
  let r' := JointConstraint.PreSolve dt (fst r) (snd r) in
  JointConstraint.cachedLambda (snd r) = JointConstraint.cachedLambda j /\
  JointConstraint.cachedLambda (snd r') = JointConstraint.cachedLambda j /\
  fst r' =
    apply_impulses (fst r) (JointConstraint.a j) (JointConstraint.b j)
      (MatMN.mulv (MatMN.Transpose (JointConstraint.jacobian (snd r')))
         (JointConstraint.cachedLambda j)).
Proof. repeat split. Qed.

(** The same for a contact. *)
Lemma penetration_PreSolve_twice
    (dt : float) (w : World T) (p : PenetrationConstraint.t) :
  let r := PenetrationConstraint.PreSolve dt w p in
  let r' := PenetrationConstraint.PreSolve dt (fst r) (snd r) in
  PenetrationConstraint.cachedLambda (snd r)
    = PenetrationConstraint.cachedLambda p /\
  PenetrationConstraint.cachedLambda (snd r')
    = PenetrationConstraint.cachedLambda p /\
  fst r' =
    apply_impulses (fst r)
      (PenetrationConstraint.a p) (PenetrationConstraint.b p)
      (MatMN.mulv (MatMN.Transpose (PenetrationConstraint.jacobian (snd r')))
         (PenetrationConstraint.cachedLambda p)).
Proof. repeat split. Qed.

End Consecutive.

(* ================================================================== *)
(** * The dimensions of the members are an invariant *)
(* ================================================================== *)

Section Dimensions.
Context {T : Type} {ops : Body.Ops T} {la : LinAlg}.

(** The constructors give the members their dimensions. *)
Lemma create_joint_wf (w : World T) (a b : ptr) (p : Vec2.t) :
  joint_wf (JointConstraint.create w a b p).
Proof. repeat split. repeat constructor. Qed.

Lemma create_penetration_wf (w : World T) (a b : ptr) (pa pb n : Vec2.t) :
  penetration_wf (PenetrationConstraint.create w a b pa pb n).
Proof. repeat split. repeat constructor. Qed.

(** [PreSolve] and [Solve] keep them. *)
Lemma joint_PreSolve_wf (dt : float) (w : World T) (c : JointConstraint.t) :
  joint_wf c -> joint_wf (snd (JointConstraint.PreSolve dt w c)).
Proof.
  intros [D L]. split; [|exact L].
  unfold JointConstraint.PreSolve. cbn [snd JointConstraint.jacobian].
  repeat apply MatMNFacts.has_dims_set. now apply MatMNFacts.has_dims_Zero.
Qed.

Lemma joint_Solve_wf (w : World T) (c : JointConstraint.t) :
  joint_wf c -> joint_wf (snd (JointConstraint.Solve w c)).
Proof.
  intros [D L]. split; [exact D|].
  unfold JointConstraint.Solve. cbn [snd JointConstraint.cachedLambda].
  now rewrite VecNFacts.length_add.
Qed.

Lemma penetration_PreSolve_wf (dt : float) (w : World T)
    (c : PenetrationConstraint.t) :
  penetration_wf c -> penetration_wf (snd (PenetrationConstraint.PreSolve dt w c)).
Proof.
  intros [D L]. split; [|exact L].
  unfold PenetrationConstraint.PreSolve.
  cbn [snd PenetrationConstraint.jacobian].
  destruct (F32.zero <? F32.max _ _);
    repeat apply MatMNFacts.has_dims_set; now apply MatMNFacts.has_dims_Zero.
Qed.

Lemma penetration_Solve_wf (w : World T) (c : PenetrationConstraint.t) :
  penetration_wf c -> penetration_wf (snd (PenetrationConstraint.Solve w c)).
Proof.
  intros [D L]. destruct (Solve_keeps w c) as (EJ & _ & _ & _ & EL).
  split; [now rewrite EJ | now rewrite EL].
Qed.

End Dimensions.

(* ================================================================== *)
(** * The applied impulse is the clamped change, not the solved lambda *)
(* ================================================================== *)


(* ================================================================== *)
(** * The statements evaluated on concrete contacts and joints *)
(* ================================================================== *)

#[local] Existing Instance Demo.body_ops.

(** C1 on a contact of friction 1/2 for which the solver returns (-3, 5):
    the normal impulse is clamped to 0. *)
Lemma normal_impulse_never_negative_witness :
  let l0 := VecN.get (PenetrationConstraint.cachedLambda
                        (snd (Demo.solved Demo.half [Demo.f (-3); Demo.f 5]))) 0 in
  l0 = F32.zero /\ (l0 <? F32.zero) = false /\ (F32.zero <=? l0) = true.
Proof.
  split; [reflexivity|].
  destruct (@normal_impulse_never_negative _ Demo.body_ops
              (Demo.returning [Demo.f (-3); Demo.f 5])
              (fst (Demo.prepared Demo.half)) (snd (Demo.prepared Demo.half)))
    as [N P].
  split; [exact N | apply P; reflexivity].
Defined.

(** C2 on the same contact when the solver returns (2, 5): the tangential
    impulse is clamped to 2 * 1/2 = 1. *)
Lemma friction_cone_clamp_witness :
  let c := snd (Demo.prepared Demo.half) in
  let c' := snd (Demo.solved Demo.half [Demo.f 2; Demo.f 5]) in
  (F32.zero <? PenetrationConstraint.friction c) = true /\
  PenetrationConstraint.cachedLambda c' = [Demo.f 2; Demo.f 1] /\
  (F32.abs (VecN.get (PenetrationConstraint.cachedLambda c') 1)
     <=? VecN.get (PenetrationConstraint.cachedLambda c') 0
         * PenetrationConstraint.friction c') = true.
Proof.
  split; [reflexivity|]. split; [reflexivity|].
  apply (@friction_cone_clamp _ Demo.body_ops
           (Demo.returning [Demo.f 2; Demo.f 5])
           (fst (Demo.prepared Demo.half)) (snd (Demo.prepared Demo.half)));
    reflexivity.
Defined.

(** C2 as stated fails when the bound is NaN.  Two bodies of infinite
    friction coefficient separate while sliding along the contact: the
    Gauss-Seidel solver returns a negative normal lambda, which is clamped to
    0, the bound is 0 * infinity, a NaN, and the tangential lambda is kept:
    after [Solve] the tangential impulse is about -1/3 with a normal impulse
    of 0, and body 0 has been slowed down along the tangent.  With a friction
    coefficient of 1/2 the same contact ends with no tangential impulse.
    Likewise a NaN returned by a solver for the tangential component is
    kept. *)
Lemma friction_cone_counterexample :
  (let c := snd (Demo.separating_prepared Demo.infinity) in
   let c' := snd (Demo.separating_solved Demo.infinity) in
   let l0 := VecN.get (PenetrationConstraint.cachedLambda c') 0 in
   let l1 := VecN.get (PenetrationConstraint.cachedLambda c') 1 in
   (F32.zero <? PenetrationConstraint.friction c) = true /\
   l0 = F32.zero /\ l1 = S754_finite true 11184811 (-25) /\
   l0 * PenetrationConstraint.friction c' = S754_nan /\
   (F32.abs l1 <=? l0 * PenetrationConstraint.friction c') = false /\
   Demo.velocity (fst (Demo.separating_prepared Demo.infinity) 0%nat)
     = Demo.vec (-1) 1 /\
   Demo.velocity (fst (Demo.separating_solved Demo.infinity) 0%nat)
     = Vec2.mk (Demo.f (-1)) (S754_finite false 11184810 (-24)) /\
   PenetrationConstraint.cachedLambda (snd (Demo.separating_solved Demo.half))
     = [F32.zero; S754_zero true]) /\
  (let c := snd (Demo.prepared Demo.half) in
   let c' := snd (Demo.solved Demo.half [Demo.f 2; S754_nan]) in
   (F32.zero <? PenetrationConstraint.friction c) = true /\
   PenetrationConstraint.cachedLambda c' = [Demo.f 2; S754_nan] /\
   (F32.abs (VecN.get (PenetrationConstraint.cachedLambda c') 1)
      <=? VecN.get (PenetrationConstraint.cachedLambda c') 0
          * PenetrationConstraint.friction c') = false).
Proof. vm_compute. repeat split. Qed.

(** C10 on the contact of friction 1/2 when the solver returns (2, 5):
    the bounds of the clamp are -1 and 1. *)
Lemma clamp_bounds_ordered_witness :
  let c := snd (Demo.prepared Demo.half) in
  let maxFriction :=
    VecN.get (PenetrationConstraint.cachedLambda
                (snd (Demo.solved Demo.half [Demo.f 2; Demo.f 5]))) 0
    * PenetrationConstraint.friction c in
  (F32.zero <? PenetrationConstraint.friction c) = true /\
  maxFriction = Demo.f 1 /\
  (maxFriction <? - maxFriction) = false /\
  (- maxFriction <=? maxFriction) = true.
Proof.
  split; [reflexivity|]. split; [reflexivity|].
  destruct (@clamp_bounds_ordered _ Demo.body_ops
              (Demo.returning [Demo.f 2; Demo.f 5])
              (fst (Demo.prepared Demo.half)) (snd (Demo.prepared Demo.half))
              eq_refl) as (_ & _ & B & L).
  split; [exact B | apply L; reflexivity].
Defined.

(** C10 as stated fails when [maxFriction] is NaN.  In the separating contact
    of two bodies of infinite friction coefficient, the normal component is
    clamped to 0, [maxFriction] is 0 * infinity, and [std::clamp] is called
    with the bounds -NaN and NaN: it returns the tangential component as it
    is. *)
Lemma clamp_bounds_counterexample :
  let w := fst (Demo.separating_prepared Demo.infinity) in
  let c := snd (Demo.separating_prepared Demo.infinity) in
  let accumulated :=
    VecN.add (PenetrationConstraint.cachedLambda c)
      (solved_lambda (ops := Demo.body_ops) (la := Demo.linalg) w c) in
  let clamped :=
    VecN.set accumulated 0
      (if VecN.get accumulated 0 <? F32.zero then F32.zero
       else VecN.get accumulated 0) in
  let maxFriction := VecN.get clamped 0 * PenetrationConstraint.friction c in
  (F32.zero <? PenetrationConstraint.friction c) = true /\
  VecN.get accumulated 0 = S754_finite true 8388608 (-25) /\
  VecN.get clamped 0 = F32.zero /\
  maxFriction = S754_nan /\
  (- maxFriction <=? maxFriction) = false /\
  F32.clamp (VecN.get clamped 1) (- maxFriction) maxFriction = VecN.get clamped 1 /\
  PenetrationConstraint.cachedLambda (snd (Demo.separating_solved Demo.infinity))
    = [F32.zero; VecN.get clamped 1].
Proof. vm_compute. repeat split. Qed.

(** C4 on the joint whose second body has drifted by 1 along x: the anchors
    are (0,0) and (1,0). *)
Lemma joint_jacobian_witness :
  let w := Demo.drifted (Demo.f 0) in
  MatMN.has_dims (JointConstraint.jacobian Demo.joint) 1 6 /\
  MatMN.rows (JointConstraint.jacobian
                (snd (JointConstraint.PreSolve Demo.dt w Demo.joint))) =
    [[Demo.f (-2); Demo.f 0; Demo.f 0; Demo.f 2; Demo.f 0; S754_zero true]].
Proof.
  assert (D : MatMN.has_dims (JointConstraint.jacobian Demo.joint) 1 6)
    by (repeat split; repeat constructor).
  split; [exact D|].
  exact (proj2 (@joint_jacobian _ Demo.body_ops Demo.dt
                  (Demo.drifted (Demo.f 0)) Demo.joint D)).
Defined.

(** C6 on the joint whose anchors coincide, with a time step of 1/60. *)
Lemma joint_bias_witness :
  let w := Demo.world (Demo.f 0) in
  let pa := Demo.LocalSpaceToWorldSpace (w 0%nat) (JointConstraint.aPoint Demo.joint) in
  let pb := Demo.LocalSpaceToWorldSpace (w 1%nat) (JointConstraint.bPoint Demo.joint) in
  let C := Vec2.Dot (Vec2.sub pb pa) (Vec2.sub pb pa) in
  (C <=? F32.c0_01) = true /\
  F32.is_finite (F32.c0_1 / Demo.dt) = true /\
  F32.is_zero (JointConstraint.bias
                 (snd (JointConstraint.PreSolve Demo.dt w Demo.joint))) = true.
Proof.
  split; [reflexivity|]. split; [reflexivity|].
  apply (@joint_bias _ Demo.body_ops Demo.dt (Demo.world (Demo.f 0)) Demo.joint);
    reflexivity.
Defined.

(** C6 as stated fails for a time step of zero: the anchors coincide, the
    quotient 0.1/0 is infinite and the bias is infinity * 0, a NaN. *)
Lemma joint_bias_counterexample :
  let w := Demo.world (Demo.f 0) in
  let pa := Demo.LocalSpaceToWorldSpace (w 0%nat) (JointConstraint.aPoint Demo.joint) in
  let pb := Demo.LocalSpaceToWorldSpace (w 1%nat) (JointConstraint.bPoint Demo.joint) in
  let C := Vec2.Dot (Vec2.sub pb pa) (Vec2.sub pb pa) in
  let bias' := JointConstraint.bias
                 (snd (JointConstraint.PreSolve F32.zero w Demo.joint)) in
  C = F32.zero /\ (C <=? F32.c0_01) = true /\
  bias' = S754_nan /\ F32.is_zero bias' = false.
Proof. repeat split. Qed.

(** C7 on the drifted joint after [PreSolve], with the Gauss-Seidel solver:
    the solved lambda is negative and is accumulated as it is. *)
Lemma joint_Solve_unclamped_witness :
  let r := JointConstraint.PreSolve Demo.dt (Demo.drifted (Demo.f 0)) Demo.joint in
  let r' := JointConstraint.Solve (la := Demo.linalg) (fst r) (snd r) in
  MatMN.has_dims (JointConstraint.jacobian (snd r)) 1 6 /\
  length (JointConstraint.cachedLambda (snd r)) = 1%nat /\
  JointConstraint.cachedLambda (snd r') = [S754_finite true 16525558 (-25)] /\
  (VecN.get (JointConstraint.cachedLambda (snd r')) 0 <? F32.zero) = true.
Proof.
  assert (D : MatMN.has_dims
                (JointConstraint.jacobian
                   (snd (JointConstraint.PreSolve Demo.dt
                           (Demo.drifted (Demo.f 0)) Demo.joint))) 1 6)
    by (repeat split; repeat constructor).
  split; [exact D|]. split; [reflexivity|].
  destruct (@joint_Solve_unclamped _ Demo.body_ops Demo.linalg
              (fst (JointConstraint.PreSolve Demo.dt (Demo.drifted (Demo.f 0)) Demo.joint))
              (snd (JointConstraint.PreSolve Demo.dt (Demo.drifted (Demo.f 0)) Demo.joint)))
    as (_ & _ & _ & _ & L).
  split; [rewrite (L eq_refl); reflexivity | reflexivity].
Defined.

(** C8 on the contact of two bodies of friction 0, with an accumulated
    tangential impulse of 7. *)
Lemma frictionless_contact_witness :
  let w := Demo.world (Demo.f 0) in
  let c := with_cachedLambda (Demo.contact (Demo.f 0)) [Demo.f 1; Demo.f 7] in
  let r := PenetrationConstraint.PreSolve (la := Demo.linalg) Demo.dt w c in
  let Jt := MatMN.Transpose (PenetrationConstraint.jacobian (snd r)) in
  let r' := PenetrationConstraint.Solve (la := Demo.linalg) (fst r) (snd r) in
  let delta := VecN.sub (PenetrationConstraint.cachedLambda (snd r'))
                        (PenetrationConstraint.cachedLambda (snd r)) in
  penetration_wf c /\
  PenetrationConstraint.friction (snd r) = F32.zero /\
  MatMN.row (PenetrationConstraint.jacobian (snd r)) 1 =
    [F32.zero; F32.zero; F32.zero; F32.zero; F32.zero; F32.zero] /\
  fst r = apply_impulses w 0 1 (MatMN.mulv Jt [Demo.f 1; F32.zero]) /\
  fst r' = apply_impulses (fst r) 0 1 (MatMN.mulv Jt [VecN.get delta 0; F32.zero]).
Proof.
  intros w c r Jt r' delta.
  assert (W : penetration_wf c) by (repeat split; repeat constructor).
  split; [exact W|].
  destruct (@frictionless_contact _ Demo.body_ops Demo.linalg Demo.dt w c W)
    as (F & Z).
  split; [exact F|].
  destruct (Z eq_refl) as (R1 & P & S).
  split; [exact R1|]. split; [exact (P eq_refl)|].
  exact (S (snd r) (fst r) (after_none _) eq_refl).
Defined.

(** C8 as stated fails when the entry that multiplies the zero row is
    infinite.  Both bodies have friction 0 and row 1 of the Jacobian is zero.
    With an accumulated tangential impulse of +infinity the warm start of
    [PreSolve] multiplies that zero by infinity and gives body 0 a velocity
    that is not a number, where an accumulated tangential impulse of 0 leaves
    its velocity (1,1) unchanged.  And when the solver returns the finite
    vector (0, FLT_MAX) in two consecutive calls of [Solve], the first call
    leaves the velocity unchanged and the second, in which [cachedLambda[1]]
    overflows, makes it not a number. *)
Lemma frictionless_counterexample :
  let w := Demo.world (Demo.f 0) in
  let c0 := with_cachedLambda (Demo.contact (Demo.f 0)) [Demo.f 0; Demo.f 0] in
  let c1 := with_cachedLambda (Demo.contact (Demo.f 0)) [Demo.f 0; Demo.infinity] in
  let r0 := PenetrationConstraint.PreSolve (la := Demo.linalg) Demo.dt w c0 in
  let r1 := PenetrationConstraint.PreSolve (la := Demo.linalg) Demo.dt w c1 in
  let big := Demo.returning [Demo.f 0; Demo.max_float] in
  let s1 := PenetrationConstraint.Solve (la := big) (fst r0) (snd r0) in
  let s2 := PenetrationConstraint.Solve (la := big) (fst s1) (snd s1) in
  F32.is_zero (F32.max (Demo.friction (w 0%nat)) (Demo.friction (w 1%nat))) = true /\
  MatMN.row (PenetrationConstraint.jacobian (snd r1)) 1 =
    [F32.zero; F32.zero; F32.zero; F32.zero; F32.zero; F32.zero] /\
  (Demo.velocity (fst r0 0%nat) = Demo.vec 1 1 /\
   Demo.velocity (fst r1 0%nat) = Vec2.mk S754_nan S754_nan) /\
  (F32.is_finite Demo.max_float = true /\
   Demo.velocity (fst s1 0%nat) = Demo.vec 1 1 /\
   PenetrationConstraint.cachedLambda (snd s2) = [Demo.f 0; Demo.infinity] /\
   Demo.velocity (fst s2 0%nat) = Vec2.mk S754_nan S754_nan).
Proof. vm_compute. repeat split. Qed.

(** The velocities in the bias of a contact are read after the warm start:
    with an accumulated normal impulse of 1, evaluating the same expression on
    the velocities the bodies had on entry gives another value. *)
Example bias_reads_warm_started_velocities :
  let w := Demo.world Demo.half in
  let c := with_cachedLambda (Demo.contact Demo.half) [Demo.f 1; Demo.f 0] in
  let r := PenetrationConstraint.PreSolve (la := Demo.linalg) Demo.dt w c in
  Demo.velocity (w 0%nat) = Demo.vec 1 1 /\
  Demo.velocity (fst r 0%nat) = Demo.vec 0 1 /\
  PenetrationConstraint.bias (snd r) = - Demo.half /\
  PenetrationConstraint.bias
    (snd (PenetrationConstraint.PreSolve (la := Demo.linalg) Demo.dt w
            (Demo.contact Demo.half))) = Demo.half.
Proof. repeat split. Qed.

(* ================================================================== *)
(** * Further facts about binary32 arithmetic: symmetry under negation *)
(* ================================================================== *)

Module F32Sym.

Lemma same_value_refl x : same_value x x.
Proof. now left. Qed.

Lemma binary_round_aux_opp s m e l :
  binary_round_aux F32.prec F32.emax (negb s) m e l
  = - binary_round_aux F32.prec F32.emax s m e l.
Proof.
  unfold binary_round_aux.
  destruct (shr_fexp F32.prec F32.emax m e l) as [mrs' e'].
  destruct (shr_fexp F32.prec F32.emax _ e' loc_Exact) as [mrs'' e''].
  destruct (shr_m mrs''); simpl; auto.
  destruct (Z.leb e'' _); simpl; auto.
Qed.

Lemma binary_round_opp s m e :
  binary_round F32.prec F32.emax (negb s) m e
  = - binary_round F32.prec F32.emax s m e.
Proof.
  unfold binary_round. destruct (shl_align m e _) as [mz ez].
  apply binary_round_aux_opp.
Qed.

Lemma normalize_opp z e :
  same_value (binary_normalize F32.prec F32.emax (- z)%Z e false)
             (- binary_normalize F32.prec F32.emax z e false).
Proof.
  destruct z as [|p|p]; cbn [Z.opp binary_normalize].
  - right. split; reflexivity.
  - left. apply (binary_round_opp false).
  - left. rewrite (binary_round_opp false). now rewrite F32Facts.opp_involutive.
Qed.

Lemma cond_Zopp_negb s z : cond_Zopp (negb s) z = (- cond_Zopp s z)%Z.
Proof. destruct s; cbn; lia. Qed.

Lemma mul_opp_r x y : x * - y = - (x * y).
Proof.
  destruct x as [sx|sx| |sx mx ex], y as [sy|sy| |sy my ey]; cbn;
    try reflexivity; try (now destruct sx, sy).
  unfold F32.mul, SFmul.
  replace (xorb sx (negb sy)) with (negb (xorb sx sy)) by (now destruct sx, sy).
  apply binary_round_aux_opp.
Qed.

Lemma mul_opp_l x y : - x * y = - (x * y).
Proof. now rewrite (F32Facts.mul_comm (- x)), mul_opp_r, (F32Facts.mul_comm y). Qed.

Lemma add_opp x y : same_value (- x + - y) (- (x + y)).
Proof.
  destruct x as [sx|sx| |sx mx ex], y as [sy|sy| |sy my ey];
    try (left; reflexivity);
    try (destruct sx, sy; (left; reflexivity) || (right; split; reflexivity)).
  change (- S754_finite sx mx ex) with (S754_finite (negb sx) mx ex).
  change (- S754_finite sy my ey) with (S754_finite (negb sy) my ey).
  unfold F32.add, SFadd. rewrite !cond_Zopp_negb.
  match goal with |- same_value (binary_normalize _ _ ?a _ _) (- binary_normalize _ _ ?b _ _) =>
    replace a with (- b)%Z by lia end.
  apply normalize_opp.
Qed.

Lemma sub_antisym x y : same_value (y - x) (- (x - y)).
Proof.
  destruct x as [sx|sx| |sx mx ex], y as [sy|sy| |sy my ey];
    try (left; reflexivity);
    try (destruct sx, sy; (left; reflexivity) || (right; split; reflexivity));
    try (destruct sx; left; reflexivity);
    try (destruct sy; left; reflexivity).
  unfold F32.sub, SFsub. rewrite (Z.min_comm ey ex).
  match goal with |- same_value (binary_normalize _ _ ?a _ _) (- binary_normalize _ _ ?b _ _) =>
    replace a with (- b)%Z by lia end.
  apply normalize_opp.
Qed.

End F32Sym.

(* ================================================================== *)
(** * A constraint touches its two bodies only *)
(* ================================================================== *)

Section Frame.
Context {T : Type} {ops : Body.Ops T} {la : LinAlg}.

Lemma call_other (w : World T) (p : ptr) (method : T -> T) (q : ptr) :
  q <> p -> call w p method q = w q.
Proof.
  intros D. unfold call, upd.
  destruct (Nat.eqb_spec q p) as [E|_]; [contradiction | reflexivity].
Qed.

Lemma apply_impulses_other (w : World T) (a b : ptr) (impulses : VecN.t) (q : ptr) :
  q <> a -> q <> b -> apply_impulses w a b impulses q = w q.
Proof.
  intros Da Db. unfold apply_impulses. now rewrite !call_other.
Qed.

(** X1.  A joint changes no body but its two: every other body of the store
    is after [PreSolve], after [Solve] and after [PreSolve] followed by
    [Solve] what it was before, whatever the solver returns. *)
Theorem joint_touches_only_its_bodies
    (dt : float) (w : World T) (this : JointConstraint.t) (q : ptr) :
  q <> JointConstraint.a this -> q <> JointConstraint.b this ->
  fst (JointConstraint.PreSolve dt w this) q = w q /\
  fst (JointConstraint.Solve w this) q = w q /\
  fst (JointConstraint.Solve (fst (JointConstraint.PreSolve dt w this))
                             (snd (JointConstraint.PreSolve dt w this))) q = w q.
Proof.
  intros Da Db. split; [|split].
  - unfold JointConstraint.PreSolve. cbn [fst]. now apply apply_impulses_other.
  - unfold JointConstraint.Solve. cbn [fst]. now apply apply_impulses_other.
  - unfold JointConstraint.Solve. cbn [fst].
    change (JointConstraint.a (snd (JointConstraint.PreSolve dt w this)))
      with (JointConstraint.a this).
    change (JointConstraint.b (snd (JointConstraint.PreSolve dt w this)))
      with (JointConstraint.b this).
    etransitivity; [now apply apply_impulses_other|].
    unfold JointConstraint.PreSolve. cbn [fst]. now apply apply_impulses_other.
Qed.

(** X2.  A contact changes no body but its two: every other body of the
    store is after [PreSolve], after [Solve] and after [PreSolve] followed
    by [Solve] what it was before. *)
Theorem penetration_touches_only_its_bodies
    (dt : float) (w : World T) (this : PenetrationConstraint.t) (q : ptr) :
  q <> PenetrationConstraint.a this -> q <> PenetrationConstraint.b this ->
  fst (PenetrationConstraint.PreSolve dt w this) q = w q /\
  fst (PenetrationConstraint.Solve w this) q = w q /\
  fst (PenetrationConstraint.Solve
         (fst (PenetrationConstraint.PreSolve dt w this))
         (snd (PenetrationConstraint.PreSolve dt w this))) q = w q.
Proof.
  intros Da Db. split; [|split].
  - unfold PenetrationConstraint.PreSolve. cbn [fst]. now apply apply_impulses_other.
  - unfold PenetrationConstraint.Solve. cbn [fst]. now apply apply_impulses_other.
  - unfold PenetrationConstraint.Solve. cbn [fst].
    change (PenetrationConstraint.a (snd (PenetrationConstraint.PreSolve dt w this)))
      with (PenetrationConstraint.a this).
    change (PenetrationConstraint.b (snd (PenetrationConstraint.PreSolve dt w this)))
      with (PenetrationConstraint.b this).
    etransitivity; [now apply apply_impulses_other|].
    unfold PenetrationConstraint.PreSolve. cbn [fst]. now apply apply_impulses_other.
Qed.
End Frame.

(* ================================================================== *)
(** * The dimensions hold in every state of a constraint *)
(* ================================================================== *)

Section States.
Context {T : Type} {ops : Body.Ops T} {la : LinAlg}.

Lemma joint_states_wf (c : JointConstraint.t) : joint_states c -> joint_wf c.
Proof.
  induction 1 as [w a b p | dt w c _ IH | w c _ IH].
  - apply create_joint_wf.
  - now apply joint_PreSolve_wf.
  - now apply joint_Solve_wf.
Qed.

Lemma penetration_states_wf (c : PenetrationConstraint.t) :
  penetration_states c -> penetration_wf c.
Proof.
  induction 1 as [w a b pa pb n | dt w c _ IH | w c _ IH].
  - apply create_penetration_wf.
  - now apply penetration_PreSolve_wf.
  - now apply penetration_Solve_wf.
Qed.

(** X3.  In every state a joint goes through, from its constructor on and
    through any calls of [PreSolve] and [Solve], the Jacobian is 1-by-6 and
    the accumulated impulse has one component, whatever the solver returns
    (also a vector of another length). *)
Theorem joint_dimensions_invariant (c : JointConstraint.t) :
  joint_states c ->
  MatMN.has_dims (JointConstraint.jacobian c) 1 6 /\
  length (JointConstraint.cachedLambda c) = 1%nat.
Proof.
  induction 1 as [w a b p | dt w c _ IH | w c _ IH].
  - apply create_joint_wf.
  - now apply joint_PreSolve_wf.
  - now apply joint_Solve_wf.
Qed.

(** X4.  In every state a contact goes through, the Jacobian is 2-by-6 and
    the accumulated impulse has two components, whatever the solver
    returns. *)
Theorem penetration_dimensions_invariant (c : PenetrationConstraint.t) :
  penetration_states c ->
  MatMN.has_dims (PenetrationConstraint.jacobian c) 2 6 /\
  length (PenetrationConstraint.cachedLambda c) = 2%nat.
Proof.
  induction 1 as [w a b pa pb n | dt w c _ IH | w c _ IH].
  - apply create_penetration_wf.
  - now apply penetration_PreSolve_wf.
  - now apply penetration_Solve_wf.
Qed.

End States.

(* ================================================================== *)
(** * The linear impulses of the two bodies are opposite *)
(* ================================================================== *)

Module ImpulseSym.

Lemma add_nan_r x : x + S754_nan = S754_nan.
Proof. now destruct x. Qed.

(** A sum started from [0.0f]: negating the term negates the sum. *)
Lemma zero_add_opp p : same_value (F32.zero + - p) (- (F32.zero + p)).
Proof.
  destruct p as [[|]|sp| |sp mp ep];
    (left; reflexivity) || (right; split; reflexivity).
Qed.

Lemma zero_add_opp' p : same_value (F32.zero + p) (- (F32.zero + - p)).
Proof.
  rewrite <- (F32Facts.opp_involutive p) at 1. apply zero_add_opp.
Qed.

(** Two terms accumulated from [0.0f]. *)
Lemma two_terms_opp p q :
  same_value ((F32.zero + - p) + - q) (- ((F32.zero + p) + q)).
Proof.
  destruct p as [sp|sp| |sp mp ep].
  - destruct sp, q as [[|]|sq| |sq mq eq];
      (left; reflexivity) || (right; split; reflexivity).
  - change (F32.zero + - S754_infinity sp) with (- S754_infinity sp).
    change (F32.zero + S754_infinity sp) with (S754_infinity sp).
    apply F32Sym.add_opp.
  - now left.
  - change (F32.zero + - S754_finite sp mp ep) with (- S754_finite sp mp ep).
    change (F32.zero + S754_finite sp mp ep) with (S754_finite sp mp ep).
    apply F32Sym.add_opp.
Qed.

(** A product by [0.0f] is a zero or a NaN. *)
Lemma mul_zero_cases l :
  F32.is_zero (l * F32.zero) = true \/ l * F32.zero = S754_nan.
Proof. destruct l; cbn; auto. Qed.

(** The second term comes from a zero row. *)
Lemma zero_row_opp p l :
  same_value ((F32.zero + - p) + l * F32.zero)
             (- ((F32.zero + p) + l * F32.zero)).
Proof.
  destruct (mul_zero_cases l) as [Z|N].
  - rewrite !(F32Facts.add_zero_absorbed _ _ Z). apply zero_add_opp.
  - rewrite N, !add_nan_r. now left.
Qed.

(** One term whose factor is a doubled difference: swapping the operands of
    the difference negates the term. *)
Lemma doubled_difference_opp x y l :
  same_value (F32.zero + l * ((x - y) * F32.two))
             (- (F32.zero + l * ((y - x) * F32.two))).
Proof.
  destruct (F32Sym.sub_antisym x y) as [E|[Z1 Z2]].
  - rewrite E, F32Sym.mul_opp_l, F32Sym.mul_opp_r. apply zero_add_opp'.
  - destruct (y - x) as [s1| | |]; try discriminate Z1.
    destruct (x - y) as [s2| | |]; try discriminate Z2.
    destruct l as [[|]|[|]| |[|] ml el]; destruct s1, s2;
      (left; reflexivity) || (right; split; reflexivity).
Qed.

End ImpulseSym.

Section Opposite.
Context {T : Type} {ops : Body.Ops T} {la : LinAlg}.

(** The Jacobian a contact has when [PreSolve] returns. *)
Lemma penetration_jacobian_eq
    (dt : float) (w : World T) (this : PenetrationConstraint.t) :
  MatMN.has_dims (PenetrationConstraint.jacobian this) 2 6 ->
  let A := PenetrationConstraint.a this in
  let B := PenetrationConstraint.b this in
  let pa := Body.LocalSpaceToWorldSpace (w A) (PenetrationConstraint.aPoint this) in
  let pb := Body.LocalSpaceToWorldSpace (w B) (PenetrationConstraint.bPoint this) in
  let n := Body.LocalSpaceToWorldSpace (w A) (PenetrationConstraint.normal this) in
  let ra := Vec2.sub pa (Body.position (w A)) in
  let rb := Vec2.sub pb (Body.position (w B)) in
  let mu := F32.max (Body.friction (w A)) (Body.friction (w B)) in
  let t := Normal n in
  PenetrationConstraint.jacobian (snd (PenetrationConstraint.PreSolve dt w this)) =
    MatMN.mk 2 6
      [ [ - Vec2.x n; - Vec2.y n; - Vec2.Cross ra n;
          Vec2.x n; Vec2.y n; Vec2.Cross rb n ];
        if F32.zero <? mu then
          [ - Vec2.x t; - Vec2.y t; - Vec2.Cross ra t;
            Vec2.x t; Vec2.y t; Vec2.Cross rb t ]
        else [ F32.zero; F32.zero; F32.zero; F32.zero; F32.zero; F32.zero ] ].
Proof.
  intros D A B pa pb n ra rb mu t.
  destruct (MatMNFacts.has_dims_2_6 _ D)
    as (x0 & x1 & x2 & x3 & x4 & x5 & y0 & y1 & y2 & y3 & y4 & y5 & E).
  unfold PenetrationConstraint.PreSolve.
  cbn [snd PenetrationConstraint.jacobian]. rewrite E.
  fold A B. fold pa pb. fold n. fold ra rb. fold mu. fold t.
  destruct (F32.zero <? mu); reflexivity.
Qed.

(** X5.  [PreSolve] rebuilds the whole Jacobian of a contact: row 0 is
    [-n, -(ra x n), n, rb x n]; row 1 is [-t, -(ra x t), t, rb x t] for the
    tangent [t] when the friction coefficient is positive and is zero
    otherwise.  Nothing of what the Jacobian held before the call is left,
    in particular no friction row of an earlier step. *)
Theorem penetration_jacobian
    (dt : float) (w : World T) (this : PenetrationConstraint.t) :
  MatMN.has_dims (PenetrationConstraint.jacobian this) 2 6 ->
  let A := PenetrationConstraint.a this in
  let B := PenetrationConstraint.b this in
  let pa := Body.LocalSpaceToWorldSpace (w A) (PenetrationConstraint.aPoint this) in
  let pb := Body.LocalSpaceToWorldSpace (w B) (PenetrationConstraint.bPoint this) in
  let n := Body.LocalSpaceToWorldSpace (w A) (PenetrationConstraint.normal this) in
  let ra := Vec2.sub pa (Body.position (w A)) in
  let rb := Vec2.sub pb (Body.position (w B)) in
  let mu := F32.max (Body.friction (w A)) (Body.friction (w B)) in
  let t := Normal n in
  PenetrationConstraint.jacobian (snd (PenetrationConstraint.PreSolve dt w this)) =
    MatMN.mk 2 6
      [ [ - Vec2.x n; - Vec2.y n; - Vec2.Cross ra n;
          Vec2.x n; Vec2.y n; Vec2.Cross rb n ];
        if F32.zero <? mu then
          [ - Vec2.x t; - Vec2.y t; - Vec2.Cross ra t;
            Vec2.x t; Vec2.y t; Vec2.Cross rb t ]
        else [ F32.zero; F32.zero; F32.zero; F32.zero; F32.zero; F32.zero ] ].
Proof.
  intros D A B pa pb n ra rb mu t.
  destruct (MatMNFacts.has_dims_2_6 _ D)
    as (x0 & x1 & x2 & x3 & x4 & x5 & y0 & y1 & y2 & y3 & y4 & y5 & E).
  unfold PenetrationConstraint.PreSolve.
  cbn [snd PenetrationConstraint.jacobian]. rewrite E.
  fold A B. fold pa pb. fold n. fold ra rb. fold mu. fold t.
  destruct (F32.zero <? mu); reflexivity.
Qed.

(** The impulses of a two-row Jacobian whose rows have opposite linear parts,
    or whose second row is zero. *)
Lemma two_rows_opposite (nx ny a0 b0 : float) (r : VecN.t) (tx ty a1 b1 l0 l1 : float) :
  r = [ - tx; - ty; a1; tx; ty; b1 ] \/
  r = [ F32.zero; F32.zero; F32.zero; F32.zero; F32.zero; F32.zero ] ->
  linear_opposite
    (MatMN.mulv
       (MatMN.Transpose (MatMN.mk 2 6 [ [ - nx; - ny; a0; nx; ny; b0 ]; r ]))
       [l0; l1]).
Proof.
  intros [-> | ->]; unfold linear_opposite, MatMN.mulv, MatMN.Transpose, VecN.Dot;
    cbn [map seq length fold_left VecN.get nth MatMN.rows MatMN.N];
    rewrite ?F32Sym.mul_opp_r; split;
    apply ImpulseSym.two_terms_opp || apply ImpulseSym.zero_row_opp.
Qed.

(** X6.  The linear impulse a contact gives to body A is the opposite of the
    one it gives to body B, in the warm start of [PreSolve] and in every
    later [Solve], for every accumulated impulse and every value the solver
    returns: the two are equal with opposite signs, or are two zeros. *)
Theorem contact_linear_impulses_opposite
    (dt : float) (w : World T) (this : PenetrationConstraint.t) :
  penetration_wf this ->
  let A := PenetrationConstraint.a this in
  let B := PenetrationConstraint.b this in
  let c' := snd (PenetrationConstraint.PreSolve dt w this) in
  let warm := MatMN.mulv (MatMN.Transpose (PenetrationConstraint.jacobian c'))
                (PenetrationConstraint.cachedLambda this) in
  (fst (PenetrationConstraint.PreSolve dt w this) = apply_impulses w A B warm /\
   linear_opposite warm) /\
  (forall (c2 : PenetrationConstraint.t) (w2 : World T),
     after_solves c' c2 ->
     let delta := VecN.sub (PenetrationConstraint.cachedLambda
                              (snd (PenetrationConstraint.Solve w2 c2)))
                           (PenetrationConstraint.cachedLambda c2) in
     let impulses :=
       MatMN.mulv (MatMN.Transpose (PenetrationConstraint.jacobian c2)) delta in
     fst (PenetrationConstraint.Solve w2 c2) = apply_impulses w2 A B impulses /\
     linear_opposite impulses).
Proof.
  intros [D L] A B c' warm.
  pose proof (penetration_jacobian_eq dt w this D) as E. cbv zeta in E. fold c' in E.
  assert (O : forall l0 l1,
            linear_opposite
              (MatMN.mulv (MatMN.Transpose (PenetrationConstraint.jacobian c')) [l0; l1])).
  { intros l0 l1. rewrite E. eapply two_rows_opposite.
    destruct (F32.zero <? _); [left | right]; reflexivity. }
  split.
  - split; [reflexivity|].
    unfold warm. rewrite (VecNFacts.two_components _ L). apply O.
  - intros c2 w2 R delta impulses.
    destruct (after_solves_keeps _ _ R) as (K1 & K2 & K3 & K4 & K5).
    split.
    + rewrite Solve_applies_delta, K3, K4. reflexivity.
    + assert (L2 : length delta = 2%nat).
      { unfold delta. rewrite VecNFacts.length_sub.
        destruct (Solve_keeps w2 c2) as (_ & _ & _ & _ & ->). now rewrite K5. }
      unfold impulses. rewrite K1, (VecNFacts.two_components _ L2). apply O.
Qed.

(** The Jacobian a joint has when [PreSolve] returns, as the code computes
    it. *)
Lemma joint_jacobian_eq (dt : float) (w : World T) (this : JointConstraint.t) :
  MatMN.has_dims (JointConstraint.jacobian this) 1 6 ->
  let pa := Body.LocalSpaceToWorldSpace (w (JointConstraint.a this))
              (JointConstraint.aPoint this) in
  let pb := Body.LocalSpaceToWorldSpace (w (JointConstraint.b this))
              (JointConstraint.bPoint this) in
  let ra := Vec2.sub pa (Body.position (w (JointConstraint.a this))) in
  let rb := Vec2.sub pb (Body.position (w (JointConstraint.b this))) in
  JointConstraint.jacobian (snd (JointConstraint.PreSolve dt w this)) =
    MatMN.mk 1 6
      [ [ (Vec2.x pa - Vec2.x pb) * F32.two; (Vec2.y pa - Vec2.y pb) * F32.two;
          Vec2.Cross ra (Vec2.sub pa pb) * F32.two;
          (Vec2.x pb - Vec2.x pa) * F32.two; (Vec2.y pb - Vec2.y pa) * F32.two;
          Vec2.Cross rb (Vec2.sub pb pa) * F32.two ] ].
Proof.
  intros D pa pb ra rb.
  destruct (MatMNFacts.has_dims_1_6 _ D) as (x0 & x1 & x2 & x3 & x4 & x5 & E).
  unfold JointConstraint.PreSolve. cbn [snd JointConstraint.jacobian].
  rewrite E. reflexivity.
Qed.

Lemma joint_Solve_keeps (w : World T) (this : JointConstraint.t) :
  JointConstraint.jacobian (snd (JointConstraint.Solve w this))
    = JointConstraint.jacobian this /\
  JointConstraint.a (snd (JointConstraint.Solve w this)) = JointConstraint.a this /\
  JointConstraint.b (snd (JointConstraint.Solve w this)) = JointConstraint.b this /\
  JointConstraint.bias (snd (JointConstraint.Solve w this))
    = JointConstraint.bias this.
Proof. repeat split. Qed.

Lemma joint_after_solves_keeps (c c' : JointConstraint.t) :
  joint_after_solves c c' ->
  JointConstraint.jacobian c' = JointConstraint.jacobian c /\
  JointConstraint.a c' = JointConstraint.a c /\
  JointConstraint.b c' = JointConstraint.b c /\
  JointConstraint.bias c' = JointConstraint.bias c.
Proof.
  induction 1 as [|c' w' _ IH]; [repeat split|].
  destruct (joint_Solve_keeps w' c') as (E1 & E2 & E3 & E4).
  destruct IH as (I1 & I2 & I3 & I4).
  repeat split; congruence.
Qed.

Lemma joint_Solve_applies (w : World T) (this : JointConstraint.t) :
  fst (JointConstraint.Solve w this) =
    apply_impulses w (JointConstraint.a this) (JointConstraint.b this)
      (MatMN.mulv (MatMN.Transpose (JointConstraint.jacobian this))
         (joint_solved_lambda w this)) /\
  JointConstraint.cachedLambda (snd (JointConstraint.Solve w this)) =
    VecN.add (JointConstraint.cachedLambda this) (joint_solved_lambda w this).
Proof. split; reflexivity. Qed.

Lemma one_component (v : VecN.t) : length v = 1%nat -> v = [VecN.get v 0].
Proof. destruct v as [|x [|y v]]; try discriminate; reflexivity. Qed.

(** X7.  The linear impulse a joint gives to body A is the opposite of the
    one it gives to body B, in the warm start of [PreSolve] and in every
    later [Solve] in which the solver returns one component, whatever its
    value. *)
Theorem joint_linear_impulses_opposite
    (dt : float) (w : World T) (this : JointConstraint.t) :
  joint_wf this ->
  let A := JointConstraint.a this in
  let B := JointConstraint.b this in
  let c' := snd (JointConstraint.PreSolve dt w this) in
  let warm := MatMN.mulv (MatMN.Transpose (JointConstraint.jacobian c'))
                (JointConstraint.cachedLambda this) in
  (fst (JointConstraint.PreSolve dt w this) = apply_impulses w A B warm /\
   linear_opposite warm) /\
  (forall (c2 : JointConstraint.t) (w2 : World T),
     joint_after_solves c' c2 ->
     length (joint_solved_lambda w2 c2) = 1%nat ->
     let impulses :=
       MatMN.mulv (MatMN.Transpose (JointConstraint.jacobian c2))
                  (joint_solved_lambda w2 c2) in
     fst (JointConstraint.Solve w2 c2) = apply_impulses w2 A B impulses /\
     linear_opposite impulses).
Proof.
  intros [D L] A B c' warm.
  pose proof (joint_jacobian_eq dt w this D) as E. cbv zeta in E. fold c' in E.
  assert (O : forall l,
            linear_opposite
              (MatMN.mulv (MatMN.Transpose (JointConstraint.jacobian c')) [l])).
  { intros l. rewrite E.
    unfold linear_opposite, MatMN.mulv, MatMN.Transpose, VecN.Dot.
    cbn [map seq length fold_left VecN.get nth MatMN.rows MatMN.N].
    split; apply ImpulseSym.doubled_difference_opp. }
  split.
  - split; [reflexivity|].
    unfold warm. rewrite (one_component _ L). apply O.
  - intros c2 w2 R L1 impulses.
    destruct (joint_after_solves_keeps _ _ R) as (K1 & K2 & K3 & _).
    split.
    + destruct (joint_Solve_applies w2 c2) as [-> _]. now rewrite K2, K3.
    + unfold impulses. rewrite K1, (one_component _ L1). apply O.
Qed.

End Opposite.

(* ================================================================== *)
(** * Signs of the bias terms and of the stored normal impulse *)
(* ================================================================== *)

Module SignFacts.

Lemma signed_not_ltb_zero r : F32.signed false r -> (r <? F32.zero) = false.
Proof. destruct r as [s|s| |s m e]; simpl; intros; subst; reflexivity. Qed.

Lemma mul_signed sx sy x y :
  F32.signed sx x -> F32.signed sy y -> F32.signed (xorb sx sy) (x * y).
Proof.
  destruct x as [s1|s1| |s1 m1 e1], y as [s2|s2| |s2 m2 e2]; simpl;
    intros; subst; try reflexivity; try exact I.
  apply F32Facts.binary_round_aux_signed.
Qed.

Lemma div_signed sx sy x y :
  F32.signed sx x -> F32.signed sy y -> F32.signed (xorb sx sy) (x / y).
Proof.
  destruct x as [s1|s1| |s1 m1 e1], y as [s2|s2| |s2 m2 e2]; simpl;
    intros; subst; try reflexivity; try exact I.
  unfold F32.div, SFdiv.
  destruct (SFdiv_core_binary _ _ _ _ _ _) as [[mz ez] lz].
  apply F32Facts.binary_round_aux_signed.
Qed.

Lemma ltb_zero_pos x : (F32.zero <? x) = true -> F32.signed false x.
Proof. destruct x as [s|[|]| |[|] m e]; simpl; intros; try discriminate; reflexivity. Qed.

Lemma max_zero_signed x : F32.signed false (F32.max F32.zero x).
Proof.
  unfold F32.max. destruct (F32.zero <? x) eqn:E; [|reflexivity].
  now apply ltb_zero_pos.
Qed.

Lemma min_zero_cases x :
  F32.signed true (F32.min F32.zero x) \/ F32.min F32.zero x = F32.zero.
Proof.
  unfold F32.min. destruct (x <? F32.zero) eqn:E; [left|now right].
  destruct x as [s|[|]| |[|] m e]; simpl in *; try discriminate; reflexivity.
Qed.

(** [k * min(0, x)] is not positive when [k] is not negative. *)
Lemma stabilisation_not_pos k x :
  F32.signed false k -> (F32.zero <? k * F32.min F32.zero x) = false.
Proof.
  intros K. destruct (min_zero_cases x) as [N | ->].
  - apply F32Facts.ltb_zero_signed. exact (mul_signed false true _ _ K N).
  - destruct k as [s|s| |s m e]; reflexivity.
Qed.

(** The product by a zero is a zero or NaN. *)
Lemma zero_mul_cases e v :
  F32.is_zero e = true ->
  F32.is_zero (e * v) = true \/ F32.is_nan (e * v) = true.
Proof.
  destruct e as [s| | |]; try discriminate. intros _.
  destruct v as [s'|s'| |s' m' e']; simpl; auto.
Qed.

(** Adding a zero or NaN makes nothing positive. *)
Lemma add_zero_not_pos p r :
  (F32.zero <? p) = false ->
  F32.is_zero r = true \/ F32.is_nan r = true ->
  (F32.zero <? p + r) = false.
Proof.
  intros P [Z | N].
  - destruct r as [sr| | |]; try discriminate.
    destruct p as [[|]|[|]| |[|] m e], sr; simpl in *; try discriminate; reflexivity.
  - destruct r; try discriminate. now destruct p.
Qed.

End SignFacts.

Section Signs.
Context {T : Type} {ops : Body.Ops T} {la : LinAlg}.

(** X8.  With a positive time step, the bias of a joint is never less than
    zero after [PreSolve] (it may be NaN), whatever the bodies and the anchor
    points are. *)
Theorem joint_bias_never_negative
    (dt : float) (w : World T) (this : JointConstraint.t) :
  (F32.zero <? dt) = true ->
  (JointConstraint.bias (snd (JointConstraint.PreSolve dt w this)) <? F32.zero)
    = false.
Proof.
  intros P. unfold JointConstraint.PreSolve. cbn [snd JointConstraint.bias].
  apply SignFacts.signed_not_ltb_zero.
  apply (SignFacts.mul_signed false false).
  - apply (SignFacts.div_signed false false); [reflexivity|].
    now apply SignFacts.ltb_zero_pos.
  - apply SignFacts.max_zero_signed.
Qed.

(** X9.  In every state a contact goes through, from its constructor on,
    the stored normal impulse is not negative: no warm start of [PreSolve]
    and no [Solve] ever starts from a pulling impulse. *)
Theorem normal_impulse_invariant (c : PenetrationConstraint.t) :
  penetration_states c ->
  (VecN.get (PenetrationConstraint.cachedLambda c) 0 <? F32.zero) = false.
Proof.
  induction 1 as [w a b pa pb n|dt w c _ IH|w c _ _].
  - reflexivity.
  - exact IH.
  - destruct (Solve_cachedLambda w c) as (_ & -> & N). exact N.
Qed.

(** X10.  With a positive time step and two bodies the smaller restitution
    of which is zero, the bias of a contact is never greater than zero after
    [PreSolve] (it may be NaN), whatever the penetration and the velocities
    are. *)
Theorem contact_bias_never_positive
    (dt : float) (w : World T) (this : PenetrationConstraint.t) :
  let w' := fst (PenetrationConstraint.PreSolve dt w this) in
  (F32.zero <? dt) = true ->
  F32.is_zero (F32.min (Body.restitution (w' (PenetrationConstraint.a this)))
                       (Body.restitution (w' (PenetrationConstraint.b this))))
    = true ->
  (F32.zero <? PenetrationConstraint.bias
                 (snd (PenetrationConstraint.PreSolve dt w this))) = false.
Proof.
  intros w' P Z. unfold PenetrationConstraint.PreSolve.
  cbn [snd PenetrationConstraint.bias].
  apply SignFacts.add_zero_not_pos.
  - apply SignFacts.stabilisation_not_pos.
    apply (SignFacts.div_signed false false); [reflexivity|].
    now apply SignFacts.ltb_zero_pos.
  - apply SignFacts.zero_mul_cases. exact Z.
Qed.

End Signs.

(* ================================================================== *)
(** * The system handed to the linear solver *)
(* ================================================================== *)

Module SystemFacts.

Lemma mul_dims m1 m2 :
  length (MatMN.rows m1) = MatMN.M m1 ->
  MatMN.has_dims (MatMN.mul m1 m2) (MatMN.M m1) (MatMN.N m2).
Proof.
  intros L. unfold MatMN.has_dims, MatMN.mul, MatMN.Transpose.
  cbn [MatMN.M MatMN.N MatMN.rows].
  repeat split.
  - now rewrite length_map.
  - apply Forall_forall. intros v I. apply in_map_iff in I.
    destruct I as (r & <- & _). now rewrite !length_map, length_seq.
Qed.

Lemma mul_rows m1 m2 :
  length (MatMN.rows (MatMN.mul m1 m2)) = length (MatMN.rows m1).
Proof. unfold MatMN.mul. cbn [MatMN.rows]. now rewrite length_map. Qed.

Lemma lhs_dims (J invM : MatMN.t) (m n : nat) :
  MatMN.has_dims J m n ->
  MatMN.has_dims (MatMN.mul (MatMN.mul J invM) (MatMN.Transpose J)) m m.
Proof.
  intros (DM & DN & L & F).
  pose proof (mul_dims (MatMN.mul J invM) (MatMN.Transpose J)) as D.
  rewrite mul_rows in D. cbn [MatMN.mul MatMN.M MatMN.Transpose MatMN.N] in D.
  rewrite <- DM at 1 2. apply D. congruence.
Qed.

Lemma rhs_length (J : MatMN.t) (V : VecN.t) (bias : float) (m n : nat) :
  MatMN.has_dims J m n ->
  let rhs := VecN.scale (MatMN.mulv J V) F32.neg_one in
  length (VecN.set rhs 0 (VecN.get rhs 0 - bias)) = m.
Proof.
  intros (DM & DN & L & F) rhs. rewrite VecNFacts.length_set.
  unfold rhs, VecN.scale, MatMN.mulv. now rewrite !length_map.
Qed.

End SystemFacts.

Section Systems.
Context {T : Type} {ops : Body.Ops T} {la : LinAlg}.

(** X11.  In every state of a joint, [Solve] hands the linear solver a
    1-by-1 matrix and a right-hand side of one component, whatever the
    bodies are, and accumulates what the solver returns for that system. *)
Theorem joint_system_dimensions (w : World T) (c : JointConstraint.t) :
  joint_states c ->
  MatMN.has_dims (joint_lhs w c) 1 1 /\
  length (joint_rhs w c) = 1%nat /\
  JointConstraint.cachedLambda (snd (JointConstraint.Solve w c)) =
    VecN.add (JointConstraint.cachedLambda c)
             (SolveGaussSeidel (joint_lhs w c) (joint_rhs w c)).
Proof.
  intros S. destruct (joint_states_wf c S) as [D _]. split; [|split].
  - exact (SystemFacts.lhs_dims _ _ 1 6 D).
  - exact (SystemFacts.rhs_length _ _ _ 1 6 D).
  - reflexivity.
Qed.

(** X12.  In every state of a contact, [Solve] hands the linear solver a
    2-by-2 matrix and a right-hand side of two components.  What [Solve]
    stores is the solver's answer for that system added to the accumulated
    impulse and clamped, and what it applies to the bodies is [Jt] times the
    change of the accumulated impulse. *)
Theorem penetration_system_dimensions (w : World T) (c : PenetrationConstraint.t) :
  penetration_states c ->
  let lambda := SolveGaussSeidel (penetration_lhs w c) (penetration_rhs w c) in
  let accumulated := VecN.add (PenetrationConstraint.cachedLambda c) lambda in
  let clamped :=
    VecN.set accumulated 0
      (if VecN.get accumulated 0 <? F32.zero then F32.zero
       else VecN.get accumulated 0) in
  let maxFriction := VecN.get clamped 0 * PenetrationConstraint.friction c in
  MatMN.has_dims (penetration_lhs w c) 2 2 /\
  length (penetration_rhs w c) = 2%nat /\
  PenetrationConstraint.cachedLambda (snd (PenetrationConstraint.Solve w c)) =
    (if F32.zero <? PenetrationConstraint.friction c then
       VecN.set clamped 1
         (F32.clamp (VecN.get clamped 1) (- maxFriction) maxFriction)
     else clamped) /\
  fst (PenetrationConstraint.Solve w c) =
    apply_impulses w (PenetrationConstraint.a c) (PenetrationConstraint.b c)
      (MatMN.mulv (MatMN.Transpose (PenetrationConstraint.jacobian c))
         (VecN.sub (PenetrationConstraint.cachedLambda
                      (snd (PenetrationConstraint.Solve w c)))
                   (PenetrationConstraint.cachedLambda c))).
Proof.
  intros S lambda accumulated clamped maxFriction.
  destruct (penetration_states_wf c S) as [D _]. split; [|split; [|split]].
  - exact (SystemFacts.lhs_dims _ _ 2 6 D).
  - exact (SystemFacts.rhs_length _ _ _ 2 6 D).
  - reflexivity.
  - reflexivity.
Qed.

End Systems.

(* ================================================================== *)
(** * The first warm start of a constraint *)
(* ================================================================== *)

Module FreshFacts.

Lemma zero_mul_finite x :
  F32.is_finite x = true -> F32.zero + F32.zero * x = F32.zero.
Proof. destruct x as [[|]|[|]| |[|] m e]; try discriminate; reflexivity. Qed.

Lemma zero_mul_finite2 x y :
  F32.is_finite x = true -> F32.is_finite y = true ->
  F32.zero + F32.zero * x + F32.zero * y = F32.zero.
Proof.
  intros Fx Fy. rewrite (zero_mul_finite x Fx).
  destruct y as [[|]|[|]| |[|] m e]; try discriminate; reflexivity.
Qed.

Lemma six_finite (x0 x1 x2 x3 x4 x5 : float) :
  all_finite [x0; x1; x2; x3; x4; x5] ->
  F32.is_finite x0 = true /\ F32.is_finite x1 = true /\ F32.is_finite x2 = true /\
  F32.is_finite x3 = true /\ F32.is_finite x4 = true /\ F32.is_finite x5 = true.
Proof.
  intros F. repeat (apply Forall_cons_iff in F; destruct F as [? F]). auto 10.
Qed.

End FreshFacts.

Section Fresh.
Context {T : Type} {ops : Body.Ops T} {la : LinAlg}.

(** X13.  The first [PreSolve] of a joint the constructor has just built
    applies the zero impulse to both bodies when the entries of the Jacobian
    are finite: there is no warm start before the first [Solve]. *)
Theorem fresh_joint_warm_start
    (w0 w : World T) (a b : ptr) (anchorPoint : Vec2.t) (dt : float) :
  let this := JointConstraint.create w0 a b anchorPoint in
  all_finite
    (MatMN.row (JointConstraint.jacobian (snd (JointConstraint.PreSolve dt w this))) 0) ->
  fst (JointConstraint.PreSolve dt w this) = apply_impulses w a b (VecN.create 6).
Proof.
  intros this.
  rewrite (joint_jacobian_eq dt w this (proj1 (create_joint_wf w0 a b anchorPoint))).
  cbn [MatMN.row MatMN.rows nth]. intros F.
  apply FreshFacts.six_finite in F. destruct F as (F0 & F1 & F2 & F3 & F4 & F5).
  change (fst (JointConstraint.PreSolve dt w this))
    with (apply_impulses w a b
            (MatMN.mulv (MatMN.Transpose
                           (JointConstraint.jacobian (snd (JointConstraint.PreSolve dt w this))))
                        [F32.zero])).
  rewrite (joint_jacobian_eq dt w this (proj1 (create_joint_wf w0 a b anchorPoint))).
  unfold MatMN.mulv, MatMN.Transpose, VecN.Dot.
  cbn [map seq length fold_left VecN.get nth MatMN.rows MatMN.N].
  now rewrite !FreshFacts.zero_mul_finite.
Qed.

(** X14.  The first [PreSolve] of a contact the constructor has just built
    applies the zero impulse to both bodies when the entries of the Jacobian
    are finite. *)
Theorem fresh_contact_warm_start
    (w0 w : World T) (a b : ptr) (pa pb n : Vec2.t) (dt : float) :
  let this := PenetrationConstraint.create w0 a b pa pb n in
  let J := PenetrationConstraint.jacobian
             (snd (PenetrationConstraint.PreSolve dt w this)) in
  all_finite (MatMN.row J 0) -> all_finite (MatMN.row J 1) ->
  fst (PenetrationConstraint.PreSolve dt w this)
    = apply_impulses w a b (VecN.create 6).
Proof.
  intros this J. subst J.
  pose proof (penetration_jacobian_eq dt w this
                (proj1 (create_penetration_wf w0 a b pa pb n))) as E.
  cbv zeta in E.
  change (fst (PenetrationConstraint.PreSolve dt w this))
    with (apply_impulses w a b
            (MatMN.mulv (MatMN.Transpose
               (PenetrationConstraint.jacobian
                  (snd (PenetrationConstraint.PreSolve dt w this))))
               [F32.zero; F32.zero])).
  rewrite E. cbn [MatMN.row MatMN.rows nth].
  destruct (F32.zero <? _); intros F0 F1;
    apply FreshFacts.six_finite in F0; destruct F0 as (A0 & A1 & A2 & A3 & A4 & A5);
    apply FreshFacts.six_finite in F1; destruct F1 as (B0 & B1 & B2 & B3 & B4 & B5);
    unfold MatMN.mulv, MatMN.Transpose, VecN.Dot;
    cbn [map seq length fold_left VecN.get nth MatMN.rows MatMN.N];
    now rewrite !FreshFacts.zero_mul_finite2.
Qed.

End Fresh.

(* ================================================================== *)
(** * What [PreSolve] does not read *)
(* ================================================================== *)

Section Stale.
Context {T : Type} {ops : Body.Ops T} {la : LinAlg}.

(** X15.  [PreSolve] of a joint reads neither the Jacobian nor the bias the
    joint holds on entry: two joints of the same bodies, anchor points and
    accumulated impulse leave [PreSolve] in the same state and with the same
    bodies, whatever an earlier step has left in the other members. *)
Theorem joint_PreSolve_forgets
    (dt : float) (w : World T) (c1 c2 : JointConstraint.t) :
  MatMN.has_dims (JointConstraint.jacobian c1) 1 6 ->
  MatMN.has_dims (JointConstraint.jacobian c2) 1 6 ->
  JointConstraint.a c1 = JointConstraint.a c2 ->
  JointConstraint.b c1 = JointConstraint.b c2 ->
  JointConstraint.aPoint c1 = JointConstraint.aPoint c2 ->
  JointConstraint.bPoint c1 = JointConstraint.bPoint c2 ->
  JointConstraint.cachedLambda c1 = JointConstraint.cachedLambda c2 ->
  JointConstraint.PreSolve dt w c1 = JointConstraint.PreSolve dt w c2.
Proof.
  intros D1 D2.
  destruct (MatMNFacts.has_dims_1_6 _ D1) as (x0 & x1 & x2 & x3 & x4 & x5 & E1).
  destruct (MatMNFacts.has_dims_1_6 _ D2) as (y0 & y1 & y2 & y3 & y4 & y5 & E2).
  destruct c1 as [a1 b1 pa1 pb1 J1 l1 bias1], c2 as [a2 b2 pa2 pb2 J2 l2 bias2].
  cbn in E1, E2 |- *. intros -> -> -> -> ->. subst J1 J2. reflexivity.
Qed.

(** X16.  [PreSolve] of a contact reads neither the Jacobian, nor the bias,
    nor the friction coefficient the contact holds on entry. *)
Theorem penetration_PreSolve_forgets
    (dt : float) (w : World T) (c1 c2 : PenetrationConstraint.t) :
  MatMN.has_dims (PenetrationConstraint.jacobian c1) 2 6 ->
  MatMN.has_dims (PenetrationConstraint.jacobian c2) 2 6 ->
  PenetrationConstraint.a c1 = PenetrationConstraint.a c2 ->
  PenetrationConstraint.b c1 = PenetrationConstraint.b c2 ->
  PenetrationConstraint.aPoint c1 = PenetrationConstraint.aPoint c2 ->
  PenetrationConstraint.bPoint c1 = PenetrationConstraint.bPoint c2 ->
  PenetrationConstraint.normal c1 = PenetrationConstraint.normal c2 ->
  PenetrationConstraint.cachedLambda c1 = PenetrationConstraint.cachedLambda c2 ->
  PenetrationConstraint.PreSolve dt w c1 = PenetrationConstraint.PreSolve dt w c2.
Proof.
  intros D1 D2.
  destruct (MatMNFacts.has_dims_2_6 _ D1)
    as (x0 & x1 & x2 & x3 & x4 & x5 & x6 & x7 & x8 & x9 & x10 & x11 & E1).
  destruct (MatMNFacts.has_dims_2_6 _ D2)
    as (y0 & y1 & y2 & y3 & y4 & y5 & y6 & y7 & y8 & y9 & y10 & y11 & E2).
  destruct c1 as [a1 b1 pa1 pb1 n1 J1 l1 bias1 mu1],
           c2 as [a2 b2 pa2 pb2 n2 J2 l2 bias2 mu2].
  cbn in E1, E2 |- *. intros -> -> -> -> -> ->. subst J1 J2.
  unfold PenetrationConstraint.PreSolve.
  cbn [PenetrationConstraint.a PenetrationConstraint.b PenetrationConstraint.aPoint
       PenetrationConstraint.bPoint PenetrationConstraint.normal
       PenetrationConstraint.jacobian PenetrationConstraint.cachedLambda].
  destruct (F32.zero <? _); reflexivity.
Qed.

End Stale.

(* ================================================================== *)
(** * The further properties evaluated on concrete contacts and joints *)
(* ================================================================== *)

(** X1 on the drifted joint of bodies 0 and 1: body 2 is what it was after
    [PreSolve] and after the [Solve] that follows. *)
Lemma joint_touches_only_its_bodies_witness :
  let w := Demo.drifted (Demo.f 0) in
  let r := JointConstraint.PreSolve Demo.dt w Demo.joint in
  2%nat <> JointConstraint.a Demo.joint /\
  2%nat <> JointConstraint.b Demo.joint /\
  fst r 2%nat = w 2%nat /\
  fst (JointConstraint.Solve (la := Demo.linalg) (fst r) (snd r)) 2%nat = w 2%nat.
Proof.
  assert (Da : 2%nat <> JointConstraint.a Demo.joint) by discriminate.
  assert (Db : 2%nat <> JointConstraint.b Demo.joint) by discriminate.
  destruct (@joint_touches_only_its_bodies _ Demo.body_ops Demo.linalg Demo.dt
              (Demo.drifted (Demo.f 0)) Demo.joint 2%nat Da Db) as (P & _ & S).
  repeat split; assumption.
Defined.

(** X2 on the contact of friction 1/2: body 2 is what it was. *)
Lemma penetration_touches_only_its_bodies_witness :
  let w := Demo.world Demo.half in
  let c := Demo.contact Demo.half in
  let r := PenetrationConstraint.PreSolve (la := Demo.linalg) Demo.dt w c in
  2%nat <> PenetrationConstraint.a c /\ 2%nat <> PenetrationConstraint.b c /\
  fst r 2%nat = w 2%nat /\
  fst (PenetrationConstraint.Solve (la := Demo.linalg) (fst r) (snd r)) 2%nat
    = w 2%nat.
Proof.
  assert (Da : 2%nat <> PenetrationConstraint.a (Demo.contact Demo.half))
    by discriminate.
  assert (Db : 2%nat <> PenetrationConstraint.b (Demo.contact Demo.half))
    by discriminate.
  destruct (@penetration_touches_only_its_bodies _ Demo.body_ops Demo.linalg
              Demo.dt (Demo.world Demo.half) (Demo.contact Demo.half) 2%nat Da Db)
    as (P & _ & S).
  repeat split; assumption.
Defined.

(** X3 on the drifted joint after [PreSolve], [Solve] and a second
    [PreSolve]. *)
Lemma joint_dimensions_invariant_witness :
  let w := Demo.drifted (Demo.f 0) in
  let r := JointConstraint.PreSolve Demo.dt w Demo.joint in
  let r' := JointConstraint.Solve (la := Demo.linalg) (fst r) (snd r) in
  let c := snd (JointConstraint.PreSolve Demo.dt (fst r') (snd r')) in
  joint_states (la := Demo.linalg) c /\
  MatMN.has_dims (JointConstraint.jacobian c) 1 6 /\
  length (JointConstraint.cachedLambda c) = 1%nat.
Proof.
  intros w r r' c.
  assert (S : joint_states (la := Demo.linalg) c).
  { apply joint_presolved, joint_solved, joint_presolved.
    exact (joint_created (Demo.world (Demo.f 0)) 0 1 (Demo.vec 0 0)). }
  split; [exact S|].
  exact (@joint_dimensions_invariant _ Demo.body_ops Demo.linalg c S).
Defined.

(** X4 on the separating contact after [PreSolve] and [Solve]. *)
Lemma penetration_dimensions_invariant_witness :
  let c := snd (Demo.separating_solved Demo.half) in
  penetration_states (la := Demo.linalg) c /\
  MatMN.has_dims (PenetrationConstraint.jacobian c) 2 6 /\
  length (PenetrationConstraint.cachedLambda c) = 2%nat.
Proof.
  intros c.
  assert (S : penetration_states (la := Demo.linalg) c).
  { apply penetration_solved, penetration_presolved.
    exact (penetration_created (Demo.world Demo.half) 0 1
             (Demo.vec 1 0) (Demo.vec 1 0) (Demo.vec 1 0)). }
  split; [exact S|].
  exact (@penetration_dimensions_invariant _ Demo.body_ops Demo.linalg c S).
Defined.

(** X5 on the contact of friction 1/2, of normal (1,0) and tangent (0,-1),
    and on the same contact once its bodies have lost their friction: the
    friction row of the first step is gone. *)
Lemma penetration_jacobian_witness :
  let c := snd (Demo.prepared Demo.half) in
  let c' := snd (PenetrationConstraint.PreSolve (la := Demo.linalg)
                   Demo.dt (Demo.world (Demo.f 0)) c) in
  MatMN.has_dims (PenetrationConstraint.jacobian (Demo.contact Demo.half)) 2 6 /\
  MatMN.has_dims (PenetrationConstraint.jacobian c) 2 6 /\
  MatMN.rows (PenetrationConstraint.jacobian c) =
    [ [Demo.f (-1); S754_zero true; S754_zero true; Demo.f 1; Demo.f 0; Demo.f 0];
      [S754_zero true; Demo.f 1; Demo.f 1; Demo.f 0; Demo.f (-1); S754_zero true] ] /\
  MatMN.rows (PenetrationConstraint.jacobian c') =
    [ [Demo.f (-1); S754_zero true; S754_zero true; Demo.f 1; Demo.f 0; Demo.f 0];
      [Demo.f 0; Demo.f 0; Demo.f 0; Demo.f 0; Demo.f 0; Demo.f 0] ].
Proof.
  intros c c'.
  assert (D : MatMN.has_dims (PenetrationConstraint.jacobian (Demo.contact Demo.half)) 2 6)
    by (repeat split; repeat constructor).
  assert (D' : MatMN.has_dims (PenetrationConstraint.jacobian c) 2 6)
    by (repeat split; repeat constructor).
  split; [exact D|]. split; [exact D'|]. split.
  - unfold c, Demo.prepared.
    rewrite (@penetration_jacobian _ Demo.body_ops Demo.linalg Demo.dt
               (Demo.world Demo.half) (Demo.contact Demo.half) D).
    reflexivity.
  - unfold c'.
    rewrite (@penetration_jacobian _ Demo.body_ops Demo.linalg Demo.dt
               (Demo.world (Demo.f 0)) c D').
    reflexivity.
Defined.

(** X6 on the contact of friction 1/2 that holds the accumulated impulse
    (2, 1) of an earlier [Solve]: the warm start of the next [PreSolve]
    gives the impulse (-2, 1) to body 0 and (2, -1) to body 1. *)
Lemma contact_linear_impulses_opposite_witness :
  let c := snd (Demo.solved Demo.half [Demo.f 2; Demo.f 5]) in
  let w := fst (Demo.solved Demo.half [Demo.f 2; Demo.f 5]) in
  let r := PenetrationConstraint.PreSolve (la := Demo.linalg) Demo.dt w c in
  let warm := MatMN.mulv (MatMN.Transpose (PenetrationConstraint.jacobian (snd r)))
                (PenetrationConstraint.cachedLambda c) in
  penetration_wf c /\
  PenetrationConstraint.cachedLambda c = [Demo.f 2; Demo.f 1] /\
  warm = [Demo.f (-2); Demo.f 1; Demo.f 1; Demo.f 2; Demo.f (-1); Demo.f 0] /\
  fst r = apply_impulses w 0 1 warm /\
  linear_opposite warm.
Proof.
  intros c w r warm.
  assert (W : penetration_wf c) by (repeat split; repeat constructor).
  split; [exact W|]. split; [reflexivity|]. split; [reflexivity|].
  exact (proj1 (@contact_linear_impulses_opposite _ Demo.body_ops Demo.linalg
                  Demo.dt w c W)).
Defined.

(** X7 on the drifted joint: the first [Solve] gives opposite linear
    impulses to the two bodies. *)
Lemma joint_linear_impulses_opposite_witness :
  let w := Demo.drifted (Demo.f 0) in
  let r := JointConstraint.PreSolve Demo.dt w Demo.joint in
  let impulses :=
    MatMN.mulv (MatMN.Transpose (JointConstraint.jacobian (snd r)))
               (joint_solved_lambda (la := Demo.linalg) (fst r) (snd r)) in
  joint_wf Demo.joint /\
  length (joint_solved_lambda (la := Demo.linalg) (fst r) (snd r)) = 1%nat /\
  (F32.zero <? VecN.get impulses 0) = true /\
  (VecN.get impulses 3 <? F32.zero) = true /\
  fst (JointConstraint.Solve (la := Demo.linalg) (fst r) (snd r))
    = apply_impulses (fst r) 0 1 impulses /\
  linear_opposite impulses.
Proof.
  intros w r impulses.
  assert (W : joint_wf Demo.joint) by (repeat split; repeat constructor).
  split; [exact W|]. split; [reflexivity|].
  split; [reflexivity|]. split; [reflexivity|].
  exact (proj2 (@joint_linear_impulses_opposite _ Demo.body_ops Demo.linalg
                  Demo.dt w Demo.joint W)
           (snd r) (fst r) (joint_after_none _) eq_refl).
Defined.

(** X8 on the drifted joint with a time step of 1/60: the bias is
    positive. *)
Lemma joint_bias_never_negative_witness :
  let bias' := JointConstraint.bias
                 (snd (JointConstraint.PreSolve Demo.dt
                         (Demo.drifted (Demo.f 0)) Demo.joint)) in
  (F32.zero <? Demo.dt) = true /\
  (F32.zero <? bias') = true /\ (bias' <? F32.zero) = false.
Proof.
  split; [reflexivity|]. split; [reflexivity|].
  apply (@joint_bias_never_negative _ Demo.body_ops Demo.dt
           (Demo.drifted (Demo.f 0)) Demo.joint).
  reflexivity.
Defined.

(** X9 on the separating contact after [PreSolve] and [Solve] with the
    Gauss-Seidel solver. *)
Lemma normal_impulse_invariant_witness :
  let c := snd (Demo.separating_solved Demo.half) in
  penetration_states (la := Demo.linalg) c /\
  (VecN.get (PenetrationConstraint.cachedLambda c) 0 <? F32.zero) = false.
Proof.
  intros c.
  assert (S : penetration_states (la := Demo.linalg) c).
  { apply penetration_solved, penetration_presolved.
    exact (penetration_created (Demo.world Demo.half) 0 1
             (Demo.vec 1 0) (Demo.vec 1 0) (Demo.vec 1 0)). }
  split; [exact S|].
  exact (@normal_impulse_invariant _ Demo.body_ops Demo.linalg c S).
Defined.

(** X10 on the penetrated contact of an inelastic body: the bias is
    negative. *)
Lemma contact_bias_never_positive_witness :
  let c := Demo.contact Demo.half in
  let r := PenetrationConstraint.PreSolve (la := Demo.linalg)
             Demo.dt inelastic_world c in
  (F32.zero <? Demo.dt) = true /\
  F32.min (Demo.restitution (fst r 0%nat)) (Demo.restitution (fst r 1%nat))
    = F32.zero /\
  (PenetrationConstraint.bias (snd r) <? F32.zero) = true /\
  (F32.zero <? PenetrationConstraint.bias (snd r)) = false.
Proof.
  split; [reflexivity|]. split; [reflexivity|]. split; [reflexivity|].
  apply (@contact_bias_never_positive _ Demo.body_ops Demo.linalg Demo.dt
           inelastic_world (Demo.contact Demo.half)); reflexivity.
Defined.

(** X11 on the drifted joint after [PreSolve]: the system is
    [8 * lambda = rhs]. *)
Lemma joint_system_dimensions_witness :
  let w := Demo.drifted (Demo.f 0) in
  let r := JointConstraint.PreSolve Demo.dt w Demo.joint in
  joint_states (la := Demo.linalg) (snd r) /\
  MatMN.rows (joint_lhs (fst r) (snd r)) = [[Demo.f 8]] /\
  MatMN.has_dims (joint_lhs (fst r) (snd r)) 1 1 /\
  length (joint_rhs (fst r) (snd r)) = 1%nat.
Proof.
  intros w r.
  assert (S : joint_states (la := Demo.linalg) (snd r)).
  { apply joint_presolved.
    exact (joint_created (Demo.world (Demo.f 0)) 0 1 (Demo.vec 0 0)). }
  split; [exact S|]. split; [reflexivity|].
  destruct (@joint_system_dimensions _ Demo.body_ops Demo.linalg (fst r) (snd r) S)
    as (D & L & _).
  split; assumption.
Defined.

(** X12 on the contact of friction 1/2 after [PreSolve]: the matrix is
    diagonal, with 2 and 3, and [Solve] stores the clamped answer of the
    Gauss-Seidel solver for it. *)
Lemma penetration_system_dimensions_witness :
  let r := Demo.prepared Demo.half in
  let lambda := Demo.GaussSeidel (penetration_lhs (fst r) (snd r))
                                 (penetration_rhs (fst r) (snd r)) in
  let c' := snd (PenetrationConstraint.Solve (la := Demo.linalg) (fst r) (snd r)) in
  penetration_states (la := Demo.linalg) (snd r) /\
  MatMN.rows (penetration_lhs (fst r) (snd r))
    = [[Demo.f 2; Demo.f 0]; [Demo.f 0; Demo.f 3]] /\
  MatMN.has_dims (penetration_lhs (fst r) (snd r)) 2 2 /\
  length (penetration_rhs (fst r) (snd r)) = 2%nat /\
  (VecN.get lambda 1 <? - (VecN.get lambda 0 * Demo.half)) = true /\
  PenetrationConstraint.cachedLambda c'
    = [VecN.get lambda 0; - (VecN.get lambda 0 * Demo.half)].
Proof.
  intros r lambda c'.
  assert (S : penetration_states (la := Demo.linalg) (snd r)).
  { apply penetration_presolved.
    exact (penetration_created (Demo.world Demo.half) 0 1
             (Demo.vec 1 0) (Demo.vec 1 0) (Demo.vec 1 0)). }
  split; [exact S|]. split; [reflexivity|].
  destruct (@penetration_system_dimensions _ Demo.body_ops Demo.linalg
              (fst r) (snd r) S) as (D & L & C & _).
  split; [exact D|]. split; [exact L|]. split; [reflexivity|].
  unfold c'. rewrite C. reflexivity.
Defined.

(** X13 on the drifted joint: its Jacobian is not zero, the first warm start
    changes no velocity. *)
Lemma fresh_joint_warm_start_witness :
  let w := Demo.drifted (Demo.f 0) in
  let r := JointConstraint.PreSolve Demo.dt w Demo.joint in
  all_finite (MatMN.row (JointConstraint.jacobian (snd r)) 0) /\
  fst r = apply_impulses w 0 1 (VecN.create 6) /\
  Demo.velocity (fst r 0%nat) = Demo.velocity (w 0%nat) /\
  Demo.velocity (fst r 1%nat) = Demo.velocity (w 1%nat).
Proof.
  intros w r.
  assert (F : all_finite (MatMN.row (JointConstraint.jacobian (snd r)) 0))
    by (repeat constructor).
  split; [exact F|]. split; [|split; reflexivity].
  exact (@fresh_joint_warm_start _ Demo.body_ops (Demo.world (Demo.f 0)) w
           0 1 (Demo.vec 0 0) Demo.dt F).
Defined.

(** X14 on the contact of friction 1/2. *)
Lemma fresh_contact_warm_start_witness :
  let w := Demo.world Demo.half in
  let r := Demo.prepared Demo.half in
  all_finite (MatMN.row (PenetrationConstraint.jacobian (snd r)) 0) /\
  all_finite (MatMN.row (PenetrationConstraint.jacobian (snd r)) 1) /\
  fst r = apply_impulses w 0 1 (VecN.create 6).
Proof.
  intros w r.
  assert (F0 : all_finite (MatMN.row (PenetrationConstraint.jacobian (snd r)) 0))
    by (repeat constructor).
  assert (F1 : all_finite (MatMN.row (PenetrationConstraint.jacobian (snd r)) 1))
    by (repeat constructor).
  split; [exact F0|]. split; [exact F1|].
  exact (@fresh_contact_warm_start _ Demo.body_ops Demo.linalg
           (Demo.world Demo.half) w 0 1 (Demo.vec 1 0) (Demo.vec 1 0) (Demo.vec 1 0)
           Demo.dt F0 F1).
Defined.

(** X15 on the joint as the constructor builds it and as a [PreSolve] on the
    drifted bodies leaves it, with another Jacobian and another bias. *)
Lemma joint_PreSolve_forgets_witness :
  let c1 := snd (JointConstraint.PreSolve Demo.dt (Demo.drifted (Demo.f 0)) Demo.joint) in
  let c2 := Demo.joint in
  let w := Demo.world (Demo.f 0) in
  JointConstraint.jacobian c1 <> JointConstraint.jacobian c2 /\
  JointConstraint.bias c1 <> JointConstraint.bias c2 /\
  JointConstraint.PreSolve Demo.dt w c1 = JointConstraint.PreSolve Demo.dt w c2.
Proof.
  intros c1 c2 w. split; [discriminate|]. split; [discriminate|].
  apply (@joint_PreSolve_forgets _ Demo.body_ops Demo.dt w c1 c2);
    try reflexivity; repeat split; repeat constructor.
Defined.

(** X16 on the contact as the constructor builds it and as a [PreSolve] with
    friction 1/2 leaves it, then taken to bodies without friction. *)
Lemma penetration_PreSolve_forgets_witness :
  let c1 := snd (Demo.prepared Demo.half) in
  let c2 := Demo.contact Demo.half in
  let w := Demo.world (Demo.f 0) in
  PenetrationConstraint.jacobian c1 <> PenetrationConstraint.jacobian c2 /\
  PenetrationConstraint.friction c1 <> PenetrationConstraint.friction c2 /\
  PenetrationConstraint.PreSolve (la := Demo.linalg) Demo.dt w c1
    = PenetrationConstraint.PreSolve (la := Demo.linalg) Demo.dt w c2.
Proof.
  intros c1 c2 w. split; [discriminate|]. split; [discriminate|].
  apply (@penetration_PreSolve_forgets _ Demo.body_ops Demo.linalg Demo.dt w c1 c2);
    try reflexivity; repeat split; repeat constructor.
Defined.
